(** * express-validator: the schema compiler ([src/middlewares/schema.ts])

    A shallow embedding of [checkSchema], [isValidatorOptions] and
    [ensureLocations], followed by the properties of the schema-to-chain
    compiler.

    Conventions of the embedding:
    - a JavaScript value is a term of [JsVal]; an object is the list of its
      own enumerable properties in [Object.keys] order;
    - the validation chain is an external collaborator: it is represented by
      what it was constructed with and by the sequence of method calls the
      compiler performs on it;
    - [console.warn] appends a line to a console, threaded through the
      compilation. *)

From Stdlib Require Import List String ZArith Bool Arith Lia Permutation.
Import ListNotations.
Local Open Scope string_scope.
Local Open Scope list_scope.

Set Implicit Arguments.
Set Warnings "-register-all".

(** ** JavaScript values *)

Module Js.

(** Numbers are the integer-valued ones plus [NaN]; functions are opaque
    and carry a name only. *)
Inductive JsVal : Type :=
| VUndefined
| VNull
| VBool (b : bool)
| VNum (n : Z)
| VNaN
| VStr (s : string)
| VArr (items : list JsVal)
| VObj (props : list (string * JsVal))
| VFun (name : string).

(** An object: own enumerable properties, in key iteration order. *)
Definition Obj : Type := list (string * JsVal).

(** [ToBoolean]: what [Boolean(v)], [v && ...] and [v ? ... : ...] test. *)
Definition truthy (v : JsVal) : bool :=
  match v with
  | VUndefined | VNull | VNaN => false
  | VBool b => b
  | VNum n => negb (n =? 0)%Z
  | VStr s => negb (s =? "")
  | VArr _ | VObj _ | VFun _ => true
  end.

(** [Array.isArray(v)]. *)
Definition isArray (v : JsVal) : bool :=
  match v with VArr _ => true | _ => false end.

(** [Object.keys(o)]. *)
Definition keys (o : Obj) : list string := map fst o.

(** [o[k]] on an object: the first (only) property of that name, or
    [undefined]. *)
Fixpoint get (o : Obj) (k : string) : JsVal :=
  match o with
  | [] => VUndefined
  | (k', v) :: rest => if k' =? k then v else get rest k
  end.

(** [v.k] on a value that is neither [null] nor [undefined], for a name
    [k] that no built-in prototype defines ([options], [if], [negated],
    [bail], [errorMessage]): only an object can hold it. *)
Definition prop (v : JsVal) (k : string) : JsVal :=
  match v with
  | VObj o => get o k
  | _ => VUndefined
  end.

(** [xs.includes(v)] for an array [xs] of strings. *)
Definition includes (xs : list string) (v : JsVal) : bool :=
  match v with
  | VStr s => existsb (String.eqb s) xs
  | _ => false
  end.

(** [v === true]. *)
Definition is_true (v : JsVal) : bool :=
  match v with VBool true => true | _ => false end.

(** [v == null]. *)
Definition is_nullish (v : JsVal) : bool :=
  match v with VUndefined | VNull => true | _ => false end.

(** [a ?? b]. *)
Definition nullish_or (a b : JsVal) : JsVal :=
  if is_nullish a then b else a.

(** [...v] in argument position; every spread in this file is applied to
    an array (see [options_is_array]). *)
Definition spread (v : JsVal) : list JsVal :=
  match v with VArr items => items | _ => [] end.

End Js.
Import Js.

(** ** Types of [schema.ts] *)

(** [Location]: at run time any value can stand where a location is
    expected; the five valid ones are strings. *)
Definition Locations : Type := list JsVal.

(** [ParamSchema]: the configuration object of one field. *)
Definition ParamSchema : Type := Obj.

(** [Schema = Record<string, ParamSchema>], in key iteration order. *)
Definition Schema : Type := list (string * ParamSchema).

Definition validLocations : list string :=
  ["body"; "cookies"; "headers"; "params"; "query"].

Definition protectedNames : list string := ["errorMessage"; "in"].

(** ** [ensureLocations] *)

Definition ensureLocations (config : ParamSchema) (defaults : Locations)
  : Locations :=
  let locations :=
    match get config "in" with
    | VArr l => l
    | v => filter truthy [v]
    end in
  let actualLocations :=
    if (List.length locations =? 0)%nat then defaults else locations in
  filter (fun location => includes validLocations location) actualLocations.

(** ** The chain builder (collaborator) *)

(** Modelled from the spec: [check] and the [ValidationChain] it returns
    live in [./check] and [../chain], outside these sources.  Invoking a
    method on the chain registers a step to run later and returns; the chain
    is therefore the field, locations and general message it was built with,
    together with the ordered log of the method calls made on it. *)
Record Call : Type := mkCall {
  call_name : string;
  call_args : list JsVal
}.

Record Chain : Type := mkChain {
  field : string;
  locations : Locations;
  message : JsVal;
  calls : list Call
}.

Definition check (fld : string) (locs : Locations) (msg : JsVal) : Chain :=
  mkChain fld locs msg [].

(** [chain[name](...args)]: the chain object is updated in place.  The
    compiler calls [chain.if], [chain.not], [chain.withMessage] and
    [chain.bail] directly: the chain is taken to have these four
    functions. *)
Definition invoke (chain : Chain) (name : string) (args : list JsVal)
  : Chain :=
  mkChain (field chain) (locations chain) (message chain)
          (calls chain ++ [mkCall name args]).

(** [console.warn]: the lines written so far. *)
Definition Console : Type := list string.

Definition unknown_method_warning (method : string) : string :=
  "express-validator: a validator/sanitizer with name " ++ method
    ++ " does not exist".

(** ** Promises *)

(** The outcome of a settled promise. *)
Inductive Settled (E A : Type) : Type :=
| Fulfilled (value : A)
| Rejected (reason : E).
Arguments Fulfilled {E A} value.
Arguments Rejected {E A} reason.

Fixpoint set_nth {A : Type} (i : nat) (x : A) (l : list A) : list A :=
  match l, i with
  | [], _ => []
  | _ :: t, O => x :: t
  | h :: t, S j => h :: set_nth j x t
  end.

Definition is_some {A : Type} (o : option A) : bool :=
  match o with Some _ => true | None => false end.

Fixpoint collect {A : Type} (slots : list (option A)) : list A :=
  match slots with
  | [] => []
  | Some v :: t => v :: collect t
  | None :: t => collect t
  end.

(** [Promise.all]: one result slot per input promise.  [order] lists the
    indices of the promises in the order in which they settle.  A fulfilled
    promise stores its value in the slot of its own index, and the
    aggregate fulfils once no slot is left empty; the first rejection
    rejects the aggregate.  [None] is a promise that is still pending. *)
Fixpoint promise_all_settle {E A : Type} (promises : list (Settled E A))
         (slots : list (option A)) (order : list nat)
  : option (Settled E (list A)) :=
  match order with
  | [] => None
  | i :: later =>
      match nth_error promises i with
      | None => promise_all_settle promises slots later
      | Some (Rejected e) => Some (Rejected e)
      | Some (Fulfilled v) =>
          let slots' := set_nth i (Some v) slots in
          if forallb is_some slots' then Some (Fulfilled (collect slots'))
          else promise_all_settle promises slots' later
      end
  end.

Definition promise_all {E A : Type} (promises : list (Settled E A))
           (order : list nat) : option (Settled E (list A)) :=
  match promises with
  | [] => Some (Fulfilled [])
  | _ => promise_all_settle promises (repeat None (List.length promises)) order
  end.

(** A slot is either still empty or holds the value of its own promise. *)
Definition slot_of {A : Type} (slot : option A) (value : A) : Prop :=
  slot = None \/ slot = Some value.

(** ** A sample chain interface

    A small method table used to run the compiler on concrete schemas:
    the names a chain answers to, and those among them that
    [ValidatorsImpl.prototype] holds. *)

Definition sample_chain_functions : list string :=
  ["if"; "not"; "withMessage"; "bail"; "optional"; "custom"; "exists";
   "isInt"; "isEmail"; "isLength"; "contains"; "trim"; "toInt"; "default"].

Definition sample_validators : list string :=
  ["not"; "withMessage"; "custom"; "exists"; "isInt"; "isEmail"; "isLength";
   "contains"].

Definition sample_has_function (name : string) : bool :=
  existsb (String.eqb name) sample_chain_functions.

Definition sample_in_validators (name : string) : bool :=
  existsb (String.eqb name) sample_validators.

(** A sample engine whose per-field result is the field name and which
    rejects for a field that has no location to read from. *)
Definition sample_chain_run (chain : Chain) (req : unit)
  : Settled string string :=
  match locations chain with
  | [] => Rejected (field chain)
  | _ => Fulfilled (field chain)
  end.

(** ** Location resolution as the specification words it *)

(** "Wrap single values, drop absent values". *)
Definition spec_normalize_in (in_ : JsVal) : Locations :=
  match in_ with
  | VUndefined => []
  | VArr given => given
  | single => [single]
  end.

(** "If the resulting list is non-empty, use it, else use the provided
    defaults; finally filter the chosen list against the fixed set". *)
Definition spec_resolve_locations (in_ : JsVal) (defaults : Locations)
  : Locations :=
  let chosen :=
    match spec_normalize_in in_ with
    | [] => defaults
    | given => given
    end in
  filter (includes validLocations) chosen.

(** The same algorithm with every falsy single value dropped, not only the
    absent one. *)
Definition chosen_locations (in_ : JsVal) (defaults : Locations)
  : Locations :=
  match in_ with
  | VArr [] => defaults
  | VArr given => given
  | single => if truthy single then [single] else defaults
  end.

Definition resolve_locations (in_ : JsVal) (defaults : Locations)
  : Locations :=
  filter (includes validLocations) (chosen_locations in_ defaults).

(** The specification's reading of a list of locations that are all
    invalid: none of them is resolved, and the defaults (filtered to the
    valid set) are used instead. *)
Definition invalid_locations_fall_back : Prop :=
  forall (config : ParamSchema) (defaults given : Locations),
    spec_normalize_in (get config "in") = given ->
    given <> [] ->
    (forall loc, includes validLocations loc = false ->
                 ~ In loc (ensureLocations config defaults))
    /\ ((forall loc, In loc given -> includes validLocations loc = false) ->
        ensureLocations config defaults
        = filter (includes validLocations) defaults).

(** The specification's algorithm computes what [ensureLocations]
    computes. *)
Definition ensureLocations_follows_spec_algorithm : Prop :=
  forall (config : ParamSchema) (defaults : Locations),
    ensureLocations config defaults
    = spec_resolve_locations (get config "in") defaults.

(** ** [checkSchema] *)

Section SchemaCompiler.

(** [typeof chain[name] === 'function'] for the chains that [check]
    builds. *)
Variable chain_has_function : string -> bool.

(** [name in ValidatorsImpl.prototype]. *)
Variable in_ValidatorsImpl_prototype : string -> bool.

(** Requests, per-field results and rejection reasons of the chain engine,
    and [chain.run(req)]: the outcome of the promise it returns. *)
Variables Request ResultWithContext Failure : Type.
Variable chain_run : Chain -> Request -> Settled Failure ResultWithContext.

Definition isValidatorOptions (method : string) (methodCfg : JsVal) : bool :=
  negb (is_true methodCfg) && in_ValidatorsImpl_prototype method.

(** Line 88-91: the argument list of the rule method. *)
Definition resolve_options (methodCfg : JsVal) : JsVal :=
  let options :=
    if is_true methodCfg then VArr []
    else nullish_or (prop methodCfg "options") (VArr []) in
  if negb (is_nullish options) && negb (isArray options)
  then VArr [options]
  else options.

(** The body of the [forEach] callback (lines 78-109), acting on the chain
    and the console it closes over. *)
Definition compile_rule (config : ParamSchema) (st : Chain * Console)
           (method : string) : Chain * Console :=
  let (chain, console) := st in
  if negb (chain_has_function method) then
    (chain, console ++ [unknown_method_warning method])
  else
    let methodCfg := get config method in
    let options := resolve_options methodCfg in
    let chain :=
      if isValidatorOptions method methodCfg && truthy (prop methodCfg "if")
      then invoke chain "if" [prop methodCfg "if"] else chain in
    let chain :=
      if isValidatorOptions method methodCfg
         && truthy (prop methodCfg "negated")
      then invoke chain "not" [] else chain in
    let chain := invoke chain method (spread options) in
    let chain :=
      if isValidatorOptions method methodCfg
         && truthy (prop methodCfg "errorMessage")
      then invoke chain "withMessage" [prop methodCfg "errorMessage"]
      else chain in
    let chain :=
      if isValidatorOptions method methodCfg && truthy (prop methodCfg "bail")
      then invoke chain "bail" [] else chain in
    (chain, console).

(** Lines 73-76: the keys that reach the [forEach]. *)
Definition rule_keys (config : ParamSchema) : list string :=
  filter (fun method =>
            truthy (get config method)
            && negb (includes protectedNames (VStr method)))
         (keys config).

(** The callback of [Object.keys(schema).map] (lines 69-113) for the key
    [fld] whose value is [config]. *)
Definition compile_field (defaultLocations : Locations) (console : Console)
           (fld : string) (config : ParamSchema) : Chain * Console :=
  let chain :=
    check fld (ensureLocations config defaultLocations)
          (get config "errorMessage") in
  fold_left (compile_rule config) (rule_keys config) (chain, console).

(** [Object.keys(schema).map(...)]: every own key of the schema with its
    own value [schema[field]], in key order, threading the console. *)
Fixpoint compile_fields (defaultLocations : Locations) (schema : Schema)
         (console : Console) : list Chain * Console :=
  match schema with
  | [] => ([], console)
  | (fld, config) :: rest =>
      let (chain, console1) :=
        compile_field defaultLocations console fld config in
      let (chains, console2) :=
        compile_fields defaultLocations rest console1 in
      (chain :: chains, console2)
  end.

(** The returned value: the array of chains with the extra own property
    [run] that [Object.assign(chains, { run })] puts on it.  [run] takes the
    request and, for the model, the order in which the per-field promises
    settle. *)
Record ChainArray : Type := mkChainArray {
  items : list Chain;
  run : Request -> list nat
        -> option (Settled Failure (list ResultWithContext))
}.

Definition checkSchema (schema : Schema) (defaultLocations : option Locations)
           (console : Console) : ChainArray * Console :=
  let defaultLocations :=
    match defaultLocations with
    | Some given => given
    | None => map VStr validLocations
    end in
  let (chains, console') := compile_fields defaultLocations schema console in
  let run := fun (req : Request) (order : list nat) =>
    promise_all (map (fun chain => chain_run chain req) chains) order in
  (mkChainArray chains run, console').

(** ** The calls a rule contributes *)

Definition append_calls (chain : Chain) (more : list Call) : Chain :=
  mkChain (field chain) (locations chain) (message chain)
          (calls chain ++ more).

(** A modifier call, present when its guard holds. *)
Definition modifier (applies : bool) (name : string) (args : list JsVal)
  : list Call :=
  if applies then [mkCall name args] else [].

Definition modifiers_before (method : string) (methodCfg : JsVal)
  : list Call :=
  modifier (isValidatorOptions method methodCfg
            && truthy (prop methodCfg "if"))
           "if" [prop methodCfg "if"]
  ++ modifier (isValidatorOptions method methodCfg
               && truthy (prop methodCfg "negated"))
              "not" [].

Definition modifiers_after (method : string) (methodCfg : JsVal)
  : list Call :=
  modifier (isValidatorOptions method methodCfg
            && truthy (prop methodCfg "errorMessage"))
           "withMessage" [prop methodCfg "errorMessage"]
  ++ modifier (isValidatorOptions method methodCfg
               && truthy (prop methodCfg "bail"))
              "bail" [].

Definition rule_calls (method : string) (methodCfg : JsVal) : list Call :=
  modifiers_before method methodCfg
  ++ [mkCall method (spread (resolve_options methodCfg))]
  ++ modifiers_after method methodCfg.

(** The keys whose method is called, and those that are warned about. *)
Definition dispatched_keys (config : ParamSchema) : list string :=
  filter chain_has_function (rule_keys config).

Definition unknown_keys (config : ParamSchema) : list string :=
  filter (fun method => negb (chain_has_function method)) (rule_keys config).

Definition field_calls (config : ParamSchema) : list Call :=
  flat_map (fun method => rule_calls method (get config method))
           (dispatched_keys config).

Definition field_chain (defaultLocations : Locations) (fld : string)
           (config : ParamSchema) : Chain :=
  mkChain fld (ensureLocations config defaultLocations)
          (get config "errorMessage") (field_calls config).

Definition field_warnings (config : ParamSchema) : Console :=
  map unknown_method_warning (unknown_keys config).

(** The calls of a validator-class rule configured by the object [o]:
    the four modifiers, each present when its value is truthy, around the
    call of the rule method. *)
Definition validator_rule_calls (method : string) (o : Obj) : list Call :=
  modifier (truthy (get o "if")) "if" [get o "if"]
  ++ modifier (truthy (get o "negated")) "not" []
  ++ [mkCall method (spread (resolve_options (VObj o)))]
  ++ modifier (truthy (get o "errorMessage")) "withMessage"
              [get o "errorMessage"]
  ++ modifier (truthy (get o "bail")) "bail" [].

(** The specification's reading of [options]: any single value that is not
    a list is passed as the only argument. *)
Definition single_option_is_sole_argument : Prop :=
  forall (config : ParamSchema) (chain : Chain) (console : Console)
         (method : string) (o : Obj) (v : JsVal),
    chain_has_function method = true ->
    get config method = VObj o ->
    In ("options", v) o -> get o "options" = v ->
    isArray v = false ->
    In (mkCall method [v])
       (calls (fst (compile_rule config (chain, console) method))).

(** The same reading for [optional]: its [options] value, when it is not a
    list, is passed as the only argument. *)
Definition optional_option_is_sole_argument : Prop :=
  forall (config : ParamSchema) (chain : Chain) (console : Console)
         (o : Obj) (v : JsVal),
    chain_has_function "optional" = true ->
    get config "optional" = VObj o ->
    In ("options", v) o -> get o "options" = v ->
    isArray v = false ->
    In (mkCall "optional" [v])
       (calls (fst (compile_rule config (chain, console) "optional"))).

(** The default locations in force: the argument when it is supplied. *)
Definition supplied_or_valid (defaultLocations : option Locations)
  : Locations :=
  match defaultLocations with
  | Some given => given
  | None => map VStr validLocations
  end.

(** ** Calls that can throw

    The compilation once more, with the one way in which these lines
    themselves can throw: calling a property of the chain that is not a
    function is a [TypeError].  A throw abandons the compilation. *)

Inductive Thrown : Type :=
| TypeError (what : string).

Inductive Outcome (A : Type) : Type :=
| Returned (value : A)
| Threw (error : Thrown).
Arguments Returned {A} value.
Arguments Threw {A} error.

Definition and_then {A B : Type} (o : Outcome A) (k : A -> Outcome B)
  : Outcome B :=
  match o with
  | Returned a => k a
  | Threw e => Threw e
  end.

Notation "x <- o ;; k" := (and_then o (fun x => k))
  (at level 61, o at next level, right associativity).

(** [xs.forEach(f)] for a callback that can throw. *)
Fixpoint forEach_or_throw {S A : Type} (f : S -> A -> Outcome S)
         (xs : list A) (st : S) : Outcome S :=
  match xs with
  | [] => Returned st
  | x :: rest => st' <- f st x ;; forEach_or_throw f rest st'
  end.

(** [chain[name](...args)], evaluated as JavaScript does. *)
Definition call_or_throw (chain : Chain) (name : string)
           (args : list JsVal) : Outcome Chain :=
  if chain_has_function name then Returned (invoke chain name args)
  else Threw (TypeError ("chain." ++ name ++ " is not a function")).

(** The [forEach] callback (lines 78-109). *)
Definition compile_rule_or_throw (config : ParamSchema)
           (st : Chain * Console) (method : string)
  : Outcome (Chain * Console) :=
  let (chain, console) := st in
  if negb (chain_has_function method) then
    Returned (chain, console ++ [unknown_method_warning method])
  else
    let methodCfg := get config method in
    let options := resolve_options methodCfg in
    chain <- (if isValidatorOptions method methodCfg
                 && truthy (prop methodCfg "if")
              then call_or_throw chain "if" [prop methodCfg "if"]
              else Returned chain) ;;
    chain <- (if isValidatorOptions method methodCfg
                 && truthy (prop methodCfg "negated")
              then call_or_throw chain "not" []
              else Returned chain) ;;
    chain <- call_or_throw chain method (spread options) ;;
    chain <- (if isValidatorOptions method methodCfg
                 && truthy (prop methodCfg "errorMessage")
              then call_or_throw chain "withMessage"
                                 [prop methodCfg "errorMessage"]
              else Returned chain) ;;
    chain <- (if isValidatorOptions method methodCfg
                 && truthy (prop methodCfg "bail")
              then call_or_throw chain "bail" []
              else Returned chain) ;;
    Returned (chain, console).

(** The callback of [Object.keys(schema).map] (lines 69-113). *)
Definition compile_field_or_throw (defaultLocations : Locations)
           (console : Console) (fld : string) (config : ParamSchema)
  : Outcome (Chain * Console) :=
  let chain :=
    check fld (ensureLocations config defaultLocations)
          (get config "errorMessage") in
  forEach_or_throw (compile_rule_or_throw config) (rule_keys config)
                   (chain, console).

Fixpoint compile_fields_or_throw (defaultLocations : Locations)
         (schema : Schema) (console : Console)
  : Outcome (list Chain * Console) :=
  match schema with
  | [] => Returned ([], console)
  | (fld, config) :: rest =>
      compiled <- compile_field_or_throw defaultLocations console fld config ;;
      others <- compile_fields_or_throw defaultLocations rest (snd compiled) ;;
      Returned (fst compiled :: fst others, snd others)
  end.

Definition checkSchema_or_throw (schema : Schema)
           (defaultLocations : option Locations) (console : Console)
  : Outcome (ChainArray * Console) :=
  compiled <- compile_fields_or_throw (supplied_or_valid defaultLocations)
                                      schema console ;;
  Returned
    (mkChainArray (fst compiled)
       (fun (req : Request) (order : list nat) =>
          promise_all (map (fun chain => chain_run chain req) (fst compiled))
                      order),
     snd compiled).

(** ** Basic facts *)

Lemma append_calls_nil (chain : Chain) : append_calls chain [] = chain.
Proof. destruct chain; unfold append_calls; simpl; now rewrite app_nil_r. Qed.

Lemma append_calls_app (chain : Chain) (xs ys : list Call) :
  append_calls (append_calls chain xs) ys = append_calls chain (xs ++ ys).
Proof. unfold append_calls; simpl; now rewrite app_assoc. Qed.

Lemma invoke_append (chain : Chain) (name : string) (args : list JsVal) :
  invoke chain name args = append_calls chain [mkCall name args].
Proof. reflexivity. Qed.

Lemma modifier_append (chain : Chain) (b : bool) (name : string)
      (args : list JsVal) :
  (if b then invoke chain name args else chain)
  = append_calls chain (modifier b name args).
Proof. destruct b; simpl; [apply invoke_append | now rewrite append_calls_nil]. Qed.

(** After lines 88-91 [options] is always an array, so the spread at
    line 101 is defined. *)
Lemma options_is_array (methodCfg : JsVal) :
  isArray (resolve_options methodCfg) = true.
Proof.
  unfold resolve_options, nullish_or.
  destruct (is_true methodCfg); [reflexivity|].
  destruct (prop methodCfg "options"); reflexivity.
Qed.

(** The callback either warns or appends the calls of the rule. *)
Lemma compile_rule_calls (config : ParamSchema) (chain : Chain)
      (console : Console) (method : string) :
  compile_rule config (chain, console) method
  = if chain_has_function method
    then (append_calls chain (rule_calls method (get config method)), console)
    else (chain, console ++ [unknown_method_warning method]).
Proof.
  unfold compile_rule.
  destruct (chain_has_function method); simpl; [|reflexivity].
  cbv zeta.
  unfold rule_calls, modifiers_before, modifiers_after, modifier.
  destruct (isValidatorOptions method (get config method)); simpl;
    [ destruct (truthy (prop (get config method) "if")),
               (truthy (prop (get config method) "negated")),
               (truthy (prop (get config method) "errorMessage")),
               (truthy (prop (get config method) "bail")) | ];
    unfold invoke, append_calls; simpl;
    rewrite <- ?app_assoc; reflexivity.
Qed.

Lemma fold_compile_rule (config : ParamSchema) (methods : list string) :
  forall (chain : Chain) (console : Console),
    fold_left (compile_rule config) methods (chain, console)
    = (append_calls chain
         (flat_map (fun method => rule_calls method (get config method))
                   (filter chain_has_function methods)),
       console ++ map unknown_method_warning
                      (filter (fun method => negb (chain_has_function method))
                              methods)).
Proof.
  induction methods as [|method methods IH]; intros chain console.
  - simpl. now rewrite append_calls_nil, app_nil_r.
  - cbn [fold_left filter]. rewrite compile_rule_calls.
    destruct (chain_has_function method); cbn [negb flat_map map]; rewrite IH.
    + now rewrite append_calls_app.
    + now rewrite <- app_assoc.
Qed.

(** Closed form of the compilation of one field. *)
Lemma compile_field_closed (defaultLocations : Locations) (console : Console)
      (fld : string) (config : ParamSchema) :
  compile_field defaultLocations console fld config
  = (field_chain defaultLocations fld config,
     console ++ field_warnings config).
Proof.
  unfold compile_field. rewrite fold_compile_rule. reflexivity.
Qed.

(** Closed form of the compilation of all fields. *)
Lemma compile_fields_closed (defaultLocations : Locations) (schema : Schema) :
  forall console : Console,
    compile_fields defaultLocations schema console
    = (map (fun entry => field_chain defaultLocations (fst entry) (snd entry))
           schema,
       console ++ flat_map (fun entry => field_warnings (snd entry)) schema).
Proof.
  induction schema as [|[fld config] rest IH]; intros console;
    cbn [compile_fields map flat_map].
  - now rewrite app_nil_r.
  - rewrite compile_field_closed, IH. cbn [fst snd]. now rewrite <- app_assoc.
Qed.

(** ** Location resolution *)

Lemma filter_all_invalid (given : Locations) :
  (forall loc, In loc given -> includes validLocations loc = false) ->
  filter (includes validLocations) given = [].
Proof.
  induction given as [|loc given IH]; intros Hinvalid; simpl; [reflexivity|].
  rewrite (Hinvalid loc (or_introl eq_refl)).
  apply IH. intros other Hin. apply Hinvalid. now right.
Qed.

Lemma ensureLocations_resolve (config : ParamSchema) (defaults : Locations) :
  ensureLocations config defaults
  = resolve_locations (get config "in") defaults.
Proof.
  unfold ensureLocations, resolve_locations, chosen_locations.
  destruct (get config "in") as [| |b|n| |s|given|props|name]; simpl;
    try reflexivity.
  - now destruct b.
  - now destruct (n =? 0)%Z.
  - now destruct (s =? "").
  - now destruct given.
Qed.

(** C1 (as amended).  Whatever [in] and the defaults hold, no location outside
    the five valid ones is resolved.  A non-empty list given as [in], or a
    single truthy value, is what gets filtered: when every given location is
    invalid the resolved list is empty, and the defaults are not consulted.
    The defaults, filtered to the valid set, are used only when [in] is an
    empty list or a falsy (in particular an absent) value. *)
Theorem ensureLocations_excludes_invalid :
  forall (config : ParamSchema) (defaults : Locations),
    (forall loc, includes validLocations loc = false ->
                 ~ In loc (ensureLocations config defaults))
    /\ (forall given, get config "in" = VArr given -> given <> [] ->
          ensureLocations config defaults
          = filter (includes validLocations) given
          /\ ((forall loc, In loc given ->
                           includes validLocations loc = false) ->
              ensureLocations config defaults = []))
    /\ (forall single, get config "in" = single ->
          isArray single = false -> truthy single = true ->
          ensureLocations config defaults
          = filter (includes validLocations) [single]
          /\ (includes validLocations single = false ->
              ensureLocations config defaults = []))
    /\ (get config "in" = VArr []
        \/ (isArray (get config "in") = false
            /\ truthy (get config "in") = false) ->
        ensureLocations config defaults
        = filter (includes validLocations) defaults).
Proof.
  intros config defaults. rewrite ensureLocations_resolve.
  unfold resolve_locations. split; [|split; [|split]].
  - intros loc Hinvalid Hin. apply filter_In in Hin. destruct Hin as [_ Hvalid].
    congruence.
  - intros given Hin Hnonempty. rewrite Hin.
    destruct given as [|loc given]; [contradiction|].
    split; [reflexivity|]. intros Hinvalid. now apply filter_all_invalid.
  - intros single <- Hnot_array Htruthy.
    assert (Hchosen : chosen_locations (get config "in") defaults
                      = [get config "in"]).
    { unfold chosen_locations.
      destruct (get config "in"); simpl in *; try discriminate;
        rewrite ?Htruthy; reflexivity. }
    rewrite Hchosen. split; [reflexivity|].
    intros Hinvalid. simpl. now rewrite Hinvalid.
  - intros [Hempty | [Hnot_array Hfalsy]].
    + now rewrite Hempty.
    + unfold chosen_locations.
      destruct (get config "in"); simpl in *; try discriminate;
        rewrite ?Hfalsy; reflexivity.
Qed.

(** C2 (as amended).  Location resolution is: a list given as [in] is taken
    as it is, a single truthy value is wrapped into a one-element list, and a
    falsy value (absent, [null], [false], [0], [NaN] or the empty string)
    yields the empty list; a non-empty result is used, otherwise the
    defaults; the chosen list is filtered against the five valid locations.
    The result is always a list (no error is raised) and it can be empty.
    When [defaultLocations] is not supplied it is
    ['body','cookies','headers','params','query']. *)
Theorem ensureLocations_algorithm :
  (forall (config : ParamSchema) (defaults : Locations),
      ensureLocations config defaults
      = resolve_locations (get config "in") defaults)
  /\ (forall (in_ : JsVal) (defaults : Locations),
         (truthy in_ = true \/ in_ = VUndefined) ->
         resolve_locations in_ defaults = spec_resolve_locations in_ defaults)
  /\ ensureLocations [("in", VArr [VStr "session"])] [VStr "body"] = []
  /\ (forall (schema : Schema) (console : Console),
         checkSchema schema None console
         = checkSchema schema
             (Some [VStr "body"; VStr "cookies"; VStr "headers";
                    VStr "params"; VStr "query"])
             console).
Proof.
  split; [exact ensureLocations_resolve|].
  split; [|split; [reflexivity|intros; reflexivity]].
  intros in_ defaults [Htruthy | Habsent].
  - unfold resolve_locations, spec_resolve_locations, chosen_locations.
    destruct in_ as [| |b|n| |str|given|props|name]; simpl in *;
      try discriminate; rewrite ?Htruthy; try reflexivity.
    now destruct given.
  - now subst in_.
Qed.

(** ** The rule dispatcher *)

Lemma rule_calls_validator (method : string) (o : Obj) :
  in_ValidatorsImpl_prototype method = true ->
  rule_calls method (VObj o) = validator_rule_calls method o.
Proof.
  intros Hvalidator.
  unfold rule_calls, modifiers_before, modifiers_after, validator_rule_calls,
    isValidatorOptions.
  rewrite Hvalidator. simpl. now rewrite <- app_assoc.
Qed.

Lemma rule_calls_not_validator (method : string) (methodCfg : JsVal) :
  in_ValidatorsImpl_prototype method = false ->
  rule_calls method methodCfg
  = [mkCall method (spread (resolve_options methodCfg))].
Proof.
  intros Hsanitizer.
  unfold rule_calls, modifiers_before, modifiers_after, isValidatorOptions.
  rewrite Hsanitizer, andb_false_r. reflexivity.
Qed.

Lemma rule_calls_true (method : string) :
  rule_calls method (VBool true) = [mkCall method []].
Proof. reflexivity. Qed.

(** C3.  For a rule whose configuration is an object, the modifiers [if],
    [negated], [errorMessage] and [bail] that the object holds are applied
    when the rule name is in [ValidatorsImpl.prototype]; when it is not, the
    rule method is the only call made, whatever the object holds. *)
Theorem modifiers_only_for_validators :
  forall (config : ParamSchema) (chain : Chain) (console : Console)
         (method : string) (o : Obj),
    chain_has_function method = true ->
    get config method = VObj o ->
    compile_rule config (chain, console) method
    = (append_calls chain
         (if in_ValidatorsImpl_prototype method
          then validator_rule_calls method o
          else [mkCall method (spread (resolve_options (VObj o)))]),
       console).
Proof.
  intros config chain console method o Hfun Hcfg.
  rewrite compile_rule_calls, Hfun, Hcfg.
  destruct (in_ValidatorsImpl_prototype method) eqn:Hclass.
  - now rewrite rule_calls_validator.
  - now rewrite rule_calls_not_validator.
Qed.

(** C4.  For a validator-class rule configured by an object, the calls are
    made in the order [if], [not], the rule method, [withMessage], [bail],
    the modifiers whose value is falsy being left out; with the four
    modifiers set these are exactly the five calls, in that order. *)
Theorem modifiers_applied_in_fixed_order :
  forall (config : ParamSchema) (chain : Chain) (console : Console)
         (method : string) (o : Obj),
    chain_has_function method = true ->
    in_ValidatorsImpl_prototype method = true ->
    get config method = VObj o ->
    calls (fst (compile_rule config (chain, console) method))
    = calls chain
      ++ map snd
           (filter fst
              [(truthy (get o "if"), mkCall "if" [get o "if"]);
               (truthy (get o "negated"), mkCall "not" []);
               (true, mkCall method (spread (resolve_options (VObj o))));
               (truthy (get o "errorMessage"),
                mkCall "withMessage" [get o "errorMessage"]);
               (truthy (get o "bail"), mkCall "bail" [])])
    /\ (truthy (get o "if") = true -> truthy (get o "negated") = true ->
        truthy (get o "errorMessage") = true ->
        truthy (get o "bail") = true ->
        calls (fst (compile_rule config (chain, console) method))
        = calls chain
          ++ [mkCall "if" [get o "if"];
              mkCall "not" [];
              mkCall method (spread (resolve_options (VObj o)));
              mkCall "withMessage" [get o "errorMessage"];
              mkCall "bail" []]).
Proof.
  intros config chain console method o Hfun Hvalidator Hcfg.
  rewrite compile_rule_calls, Hfun, Hcfg, rule_calls_validator by assumption.
  unfold validator_rule_calls, modifier. simpl fst.
  split.
  - destruct (truthy (get o "if")), (truthy (get o "negated")),
      (truthy (get o "errorMessage")), (truthy (get o "bail")); reflexivity.
  - intros -> -> -> ->. reflexivity.
Qed.

(** C5 (as amended).  A rule configured by the literal [true] is called with
    no argument and without any modifier.  A rule configured by an object
    receives: the value of [options] as its only argument when that value is
    neither a list, nor [null], nor [undefined]; the elements of [options]
    as positional arguments when it is a list; no argument when [options] is
    absent, [undefined] or [null]. *)
Theorem rule_arguments :
  forall (config : ParamSchema) (chain : Chain) (console : Console)
         (method : string),
    chain_has_function method = true ->
    (get config method = VBool true ->
     compile_rule config (chain, console) method
     = (invoke chain method [], console))
    /\ (forall (o : Obj) (v : JsVal),
           get config method = VObj o -> get o "options" = v ->
           isArray v = false -> is_nullish v = false ->
           fst (compile_rule config (chain, console) method)
           = append_calls chain
               (modifiers_before method (VObj o)
                ++ [mkCall method [v]]
                ++ modifiers_after method (VObj o)))
    /\ (forall (o : Obj) (args : list JsVal),
           get config method = VObj o -> get o "options" = VArr args ->
           fst (compile_rule config (chain, console) method)
           = append_calls chain
               (modifiers_before method (VObj o)
                ++ [mkCall method args]
                ++ modifiers_after method (VObj o)))
    /\ (forall (o : Obj),
           get config method = VObj o -> is_nullish (get o "options") = true ->
           fst (compile_rule config (chain, console) method)
           = append_calls chain
               (modifiers_before method (VObj o)
                ++ [mkCall method []]
                ++ modifiers_after method (VObj o))).
Proof.
  intros config chain console method Hfun.
  rewrite compile_rule_calls, Hfun. cbn [fst].
  split; [|split; [|split]].
  - intros ->. now rewrite rule_calls_true.
  - intros o v -> Hopt Hnot_array Hnot_nullish.
    unfold rule_calls, resolve_options, nullish_or. cbn [is_true prop].
    rewrite Hopt, Hnot_nullish. cbn [negb andb]. rewrite Hnot_nullish, Hnot_array.
    reflexivity.
  - intros o args -> Hopt.
    unfold rule_calls, resolve_options, nullish_or. cbn [is_true prop].
    rewrite Hopt. reflexivity.
  - intros o -> Hnullish.
    unfold rule_calls, resolve_options, nullish_or. cbn [is_true prop].
    rewrite Hnullish. reflexivity.
Qed.

(** C9.  For a validator-class rule configured by an object, a modifier whose
    value is falsy is not applied: a falsy [if] adds no [if] call, a falsy
    [negated] no [not] call, a falsy [errorMessage] no [withMessage] call, a
    falsy [bail] no [bail] call; with the four of them falsy the rule method
    is the only call. *)
Theorem falsy_modifiers_are_not_applied :
  forall (config : ParamSchema) (chain : Chain) (console : Console)
         (method : string) (o : Obj),
    chain_has_function method = true ->
    in_ValidatorsImpl_prototype method = true ->
    get config method = VObj o ->
    let rule := mkCall method (spread (resolve_options (VObj o))) in
    let with_if := modifier (truthy (get o "if")) "if" [get o "if"] in
    let with_not := modifier (truthy (get o "negated")) "not" [] in
    let with_message :=
      modifier (truthy (get o "errorMessage")) "withMessage"
               [get o "errorMessage"] in
    let with_bail := modifier (truthy (get o "bail")) "bail" [] in
    let made := calls (fst (compile_rule config (chain, console) method)) in
    (truthy (get o "if") = false ->
     made = calls chain ++ with_not ++ [rule] ++ with_message ++ with_bail)
    /\ (truthy (get o "negated") = false ->
        made = calls chain ++ with_if ++ [rule] ++ with_message ++ with_bail)
    /\ (truthy (get o "errorMessage") = false ->
        made = calls chain ++ with_if ++ with_not ++ [rule] ++ with_bail)
    /\ (truthy (get o "bail") = false ->
        made = calls chain ++ with_if ++ with_not ++ [rule] ++ with_message)
    /\ (truthy (get o "if") = false -> truthy (get o "negated") = false ->
        truthy (get o "errorMessage") = false ->
        truthy (get o "bail") = false ->
        made = calls chain ++ [rule]).
Proof.
  intros config chain console method o Hfun Hvalidator Hcfg.
  cbv zeta.
  rewrite compile_rule_calls, Hfun, Hcfg, rule_calls_validator by assumption.
  unfold validator_rule_calls. cbn [fst append_calls calls].
  repeat split.
  - intros ->. reflexivity.
  - intros ->. reflexivity.
  - intros ->. reflexivity.
  - intros ->. cbn [modifier]. now rewrite !app_nil_r.
  - intros -> -> -> ->. reflexivity.
Qed.

(** ** Removing one entry of a configuration object *)

Lemma get_other (pre post : Obj) (k : string) (v : JsVal) (other : string) :
  other <> k ->
  get (pre ++ (k, v) :: post) other = get (pre ++ post) other.
Proof.
  intros Hother.
  induction pre as [|[k' v'] pre IH]; simpl.
  - destruct (String.eqb_spec k other); [congruence|reflexivity].
  - now rewrite IH.
Qed.

Lemma get_fresh (pre post : Obj) (k : string) (v : JsVal) :
  ~ In k (keys pre) ->
  get (pre ++ (k, v) :: post) k = v.
Proof.
  induction pre as [|[k' v'] pre IH]; simpl; intros Hfresh.
  - now rewrite String.eqb_refl.
  - destruct (String.eqb_spec k' k) as [->|_]; [tauto|].
    apply IH. tauto.
Qed.

Lemma keys_app (pre post : Obj) : keys (pre ++ post) = keys pre ++ keys post.
Proof. apply map_app. Qed.

Lemma nodup_keys_middle (pre post : Obj) (k : string) (v : JsVal) :
  NoDup (keys (pre ++ (k, v) :: post)) ->
  ~ In k (keys pre) /\ ~ In k (keys post).
Proof.
  rewrite keys_app. simpl. intros Hnodup.
  apply NoDup_remove_2 in Hnodup. rewrite in_app_iff in Hnodup. tauto.
Qed.

(** The keys that reach the dispatcher, with one entry singled out. *)
Lemma rule_keys_middle (pre post : Obj) (k : string) (v : JsVal) :
  NoDup (keys (pre ++ (k, v) :: post)) ->
  exists earlier later,
    rule_keys (pre ++ post) = earlier ++ later
    /\ rule_keys (pre ++ (k, v) :: post)
       = earlier
         ++ (if truthy v && negb (includes protectedNames (VStr k))
             then [k] else [])
         ++ later
    /\ ~ In k earlier /\ ~ In k later.
Proof.
  intros Hnodup.
  destruct (nodup_keys_middle _ _ _ _ Hnodup) as [Hpre Hpost].
  set (keep := fun method =>
                 truthy (get (pre ++ post) method)
                 && negb (includes protectedNames (VStr method))).
  exists (filter keep (keys pre)), (filter keep (keys post)).
  assert (Hsame : forall l, ~ In k l ->
            filter (fun method =>
                      truthy (get (pre ++ (k, v) :: post) method)
                      && negb (includes protectedNames (VStr method))) l
            = filter keep l).
  { intros l Hl. apply filter_ext_in. intros other Hin. unfold keep.
    rewrite get_other; [reflexivity|]. intros ->. contradiction. }
  unfold rule_keys. rewrite !keys_app, !filter_app. cbn [keys map fst filter].
  rewrite get_fresh by assumption.
  rewrite !Hsame by assumption.
  repeat split.
  - destruct (truthy v && negb (includes protectedNames (VStr k)));
      reflexivity.
  - intros Hin. apply filter_In in Hin. tauto.
  - intros Hin. apply filter_In in Hin. tauto.
Qed.

Lemma flat_map_agree {A B : Type} (f g : A -> list B) (l : list A) :
  (forall a, In a l -> f a = g a) -> flat_map f l = flat_map g l.
Proof.
  induction l as [|a l IH]; intros Hagree; simpl; [reflexivity|].
  rewrite (Hagree a (or_introl eq_refl)), IH; [reflexivity|].
  intros b Hb. apply Hagree. now right.
Qed.

(** An entry that does not reach the dispatcher, or whose name the chain
    does not answer to, contributes no call. *)
Lemma field_calls_remove (pre post : Obj) (k : string) (v : JsVal) :
  NoDup (keys (pre ++ (k, v) :: post)) ->
  truthy v && negb (includes protectedNames (VStr k)) = false
  \/ chain_has_function k = false ->
  field_calls (pre ++ (k, v) :: post) = field_calls (pre ++ post).
Proof.
  intros Hnodup Hskipped.
  destruct (rule_keys_middle _ _ _ _ Hnodup)
    as (earlier & later & Hwithout & Hwith & Hearlier & Hlater).
  unfold field_calls, dispatched_keys. rewrite Hwith, Hwithout.
  rewrite !filter_app.
  assert (Hmiddle :
            filter chain_has_function
                   (if truthy v && negb (includes protectedNames (VStr k))
                    then [k] else []) = []).
  { destruct Hskipped as [-> | Hunknown]; [reflexivity|].
    destruct (truthy v && negb (includes protectedNames (VStr k)));
      simpl; now rewrite ?Hunknown. }
  rewrite Hmiddle. cbn [app].
  rewrite <- filter_app.
  apply flat_map_agree. intros other Hin.
  apply filter_In in Hin. destruct Hin as [Hin _].
  rewrite get_other; [reflexivity|].
  intros ->. apply in_app_iff in Hin. tauto.
Qed.

(** The warnings of a configuration, with one entry singled out. *)
Lemma field_warnings_middle (pre post : Obj) (k : string) (v : JsVal) :
  NoDup (keys (pre ++ (k, v) :: post)) ->
  exists earlier later,
    field_warnings (pre ++ post) = earlier ++ later
    /\ field_warnings (pre ++ (k, v) :: post)
       = earlier
         ++ (if truthy v && negb (includes protectedNames (VStr k))
                && negb (chain_has_function k)
             then [unknown_method_warning k] else [])
         ++ later.
Proof.
  intros Hnodup.
  destruct (rule_keys_middle _ _ _ _ Hnodup)
    as (earlier & later & Hwithout & Hwith & _).
  set (unknown := fun method => negb (chain_has_function method)).
  exists (map unknown_method_warning (filter unknown earlier)),
         (map unknown_method_warning (filter unknown later)).
  unfold field_warnings, unknown_keys. fold unknown.
  rewrite Hwith, Hwithout, !filter_app, !map_app.
  split; [reflexivity|]. do 2 f_equal.
  destruct (truthy v && negb (includes protectedNames (VStr k)));
    [|reflexivity].
  unfold unknown. simpl. now destruct (chain_has_function k).
Qed.

(** Every call made on a chain is either one of the four modifiers or the
    method of a dispatched key. *)
Lemma rule_calls_names (method : string) (methodCfg : JsVal) (c : Call) :
  In c (rule_calls method methodCfg) ->
  call_name c = method
  \/ In (call_name c) ["if"; "not"; "withMessage"; "bail"].
Proof.
  unfold rule_calls, modifiers_before, modifiers_after, modifier.
  rewrite !in_app_iff. intros Hc.
  repeat match goal with
         | H : _ \/ _ |- _ => destruct H
         | H : In _ (if ?b then _ else _) |- _ => destruct b
         | H : In _ [] |- _ => destruct H
         | H : In _ (_ :: _) |- _ => destruct H as [<- | H]
         end; simpl; tauto.
Qed.

Lemma field_calls_names (config : ParamSchema) (c : Call) :
  In c (field_calls config) ->
  In (call_name c) (dispatched_keys config)
  \/ In (call_name c) ["if"; "not"; "withMessage"; "bail"].
Proof.
  unfold field_calls. rewrite in_flat_map.
  intros (method & Hdispatched & Hc).
  destruct (rule_calls_names _ _ _ Hc) as [-> | Hmodifier]; tauto.
Qed.

Lemma rule_keys_spec (config : ParamSchema) (k : string) :
  In k (rule_keys config)
  <-> In k (keys config) /\ truthy (get config k) = true
      /\ k <> "errorMessage" /\ k <> "in".
Proof.
  unfold rule_keys. rewrite filter_In, andb_true_iff, negb_true_iff.
  simpl. rewrite !orb_false_r, orb_false_iff.
  rewrite !String.eqb_neq. tauto.
Qed.

Lemma field_calls_are_functions (config : ParamSchema) (c : Call) :
  chain_has_function "if" = true -> chain_has_function "not" = true ->
  chain_has_function "withMessage" = true ->
  chain_has_function "bail" = true ->
  In c (field_calls config) ->
  chain_has_function (call_name c) = true.
Proof.
  intros Hif Hnot Hmsg Hbail Hc.
  destruct (field_calls_names _ _ Hc) as [Hkey | Hmodifier].
  - unfold dispatched_keys in Hkey. apply filter_In in Hkey. tauto.
  - simpl in Hmodifier.
    destruct Hmodifier as [<- | [<- | [<- | [<- | []]]]]; assumption.
Qed.

Lemma checkSchema_items (schema : Schema) (defaultLocations : option Locations)
      (console : Console) :
  items (fst (checkSchema schema defaultLocations console))
  = map (fun entry =>
           field_chain (supplied_or_valid defaultLocations)
                       (fst entry) (snd entry))
        schema.
Proof.
  unfold checkSchema. fold (supplied_or_valid defaultLocations).
  now rewrite compile_fields_closed.
Qed.

Lemma checkSchema_console (schema : Schema)
      (defaultLocations : option Locations) (console : Console) :
  snd (checkSchema schema defaultLocations console)
  = console ++ flat_map (fun entry => field_warnings (snd entry)) schema.
Proof.
  unfold checkSchema. fold (supplied_or_valid defaultLocations).
  now rewrite compile_fields_closed.
Qed.

Lemma checkSchema_same_chains (schema schema' : Schema)
      (defaultLocations : option Locations) (console console' : Console) :
  items (fst (checkSchema schema defaultLocations console))
  = items (fst (checkSchema schema' defaultLocations console')) ->
  fst (checkSchema schema defaultLocations console)
  = fst (checkSchema schema' defaultLocations console').
Proof.
  rewrite !checkSchema_items. unfold checkSchema.
  fold (supplied_or_valid defaultLocations).
  rewrite !compile_fields_closed. cbn [fst]. now intros ->.
Qed.

(** C8.  The keys that reach the dispatcher are the keys of the
    configuration whose value is truthy and whose name is neither
    [errorMessage] nor [in]; every call made on the chain and every warning
    comes from one of them; no call named [errorMessage] or [in] is ever
    made; and an entry that is reserved or whose value is falsy can be
    removed from the configuration without changing the calls made on the
    chain or the console. *)
Theorem reserved_and_falsy_keys_are_skipped :
  forall (defaultLocations : Locations) (console : Console) (fld : string)
         (config : ParamSchema),
    (forall k, In k (rule_keys config)
               <-> In k (keys config) /\ truthy (get config k) = true
                   /\ k <> "errorMessage" /\ k <> "in")
    /\ compile_field defaultLocations console fld config
       = (mkChain fld (ensureLocations config defaultLocations)
                  (get config "errorMessage")
                  (flat_map
                     (fun method => rule_calls method (get config method))
                     (filter chain_has_function (rule_keys config))),
          console
          ++ map unknown_method_warning
                 (filter (fun method => negb (chain_has_function method))
                         (rule_keys config)))
    /\ (forall c,
           In c (calls
                   (fst (compile_field defaultLocations console fld config)))
           -> call_name c <> "errorMessage" /\ call_name c <> "in")
    /\ (forall pre post k v,
           config = pre ++ (k, v) :: post ->
           NoDup (keys config) ->
           In k protectedNames \/ truthy v = false ->
           calls (fst (compile_field defaultLocations console fld config))
           = calls (fst (compile_field defaultLocations console fld
                                       (pre ++ post)))
           /\ snd (compile_field defaultLocations console fld config)
              = snd (compile_field defaultLocations console fld
                                   (pre ++ post))).
Proof.
  intros defaultLocations console fld config.
  split; [exact (rule_keys_spec config)|].
  split; [apply compile_field_closed|].
  rewrite compile_field_closed. cbn [fst snd field_chain calls].
  split.
  - intros c Hc.
    destruct (field_calls_names _ _ Hc) as [Hkey | Hmodifier].
    + unfold dispatched_keys in Hkey. apply filter_In in Hkey.
      destruct Hkey as [Hkey _]. apply rule_keys_spec in Hkey. tauto.
    + simpl in Hmodifier.
      destruct Hmodifier as [<- | [<- | [<- | [<- | []]]]];
        split; discriminate.
  - intros pre post k v -> Hnodup Hskipped.
    assert (Hdrop : truthy v && negb (includes protectedNames (VStr k))
                    = false).
    { destruct Hskipped as [Hreserved | ->]; [|reflexivity].
      simpl in Hreserved.
      destruct Hreserved as [<- | [<- | []]]; simpl; apply andb_false_r. }
    rewrite !compile_field_closed. cbn [fst snd field_chain calls].
    split.
    + apply field_calls_remove; [assumption | now left].
    + destruct (field_warnings_middle _ _ _ _ Hnodup)
        as (earlier & later & Hwithout & Hwith).
      rewrite Hdrop in Hwith. cbn [andb app] in Hwith.
      now rewrite Hwith, Hwithout.
Qed.

(** C10 (as amended).  [optional] is not a reserved key: an entry [optional]
    with a truthy value reaches the dispatcher, where it is handled by the
    same callback as every rule.  When the chain has a function of that
    name, the literal [true] yields the call [optional()], and an object
    whose [options] is neither a list, nor [null], nor [undefined] (such as
    the object that [Partial<Optional>] describes) yields
    [optional(options)]; an object whose [options] is [null], [undefined]
    or absent yields [optional()]; on a chain whose validator prototype
    does not hold [optional] no modifier is added. *)
Theorem optional_is_dispatched_as_a_rule :
  forall (defaultLocations : Locations) (console : Console) (fld : string)
         (config : ParamSchema) (chain : Chain),
    ~ In "optional" protectedNames
    /\ (In "optional" (keys config) ->
        truthy (get config "optional") = true ->
        In "optional" (rule_keys config))
    /\ (In "optional" (keys config) ->
        truthy (get config "optional") = true ->
        chain_has_function "optional" = true ->
        incl (rule_calls "optional" (get config "optional"))
             (calls
                (fst (compile_field defaultLocations console fld config))))
    /\ (chain_has_function "optional" = true ->
        get config "optional" = VBool true ->
        compile_rule config (chain, console) "optional"
        = (invoke chain "optional" [], console))
    /\ (chain_has_function "optional" = true ->
        forall (o : Obj) (v : JsVal),
          get config "optional" = VObj o -> get o "options" = v ->
          isArray v = false -> is_nullish v = false ->
          rule_calls "optional" (get config "optional")
          = modifiers_before "optional" (VObj o)
            ++ [mkCall "optional" [v]]
            ++ modifiers_after "optional" (VObj o)
          /\ fst (compile_rule config (chain, console) "optional")
             = append_calls chain
                 (rule_calls "optional" (get config "optional"))
          /\ (in_ValidatorsImpl_prototype "optional" = false ->
              compile_rule config (chain, console) "optional"
              = (invoke chain "optional" [v], console)))
    /\ (chain_has_function "optional" = true ->
        forall (o : Obj),
          get config "optional" = VObj o ->
          is_nullish (get o "options") = true ->
          fst (compile_rule config (chain, console) "optional")
          = append_calls chain
              (modifiers_before "optional" (VObj o)
               ++ [mkCall "optional" []]
               ++ modifiers_after "optional" (VObj o))
          /\ (in_ValidatorsImpl_prototype "optional" = false ->
              compile_rule config (chain, console) "optional"
              = (invoke chain "optional" [], console))).
Proof.
  intros defaultLocations console fld config chain.
  split; [simpl; intros [H | [H | []]]; discriminate H|].
  split; [intros Hkey Htruthy; apply rule_keys_spec;
          repeat split; try assumption; discriminate|].
  split; [|split; [|split]].
  - intros Hkey Htruthy Hfun c Hc.
    rewrite compile_field_closed. cbn [fst field_chain calls].
    unfold field_calls. apply in_flat_map. exists "optional".
    split; [|assumption].
    unfold dispatched_keys. apply filter_In. split; [|assumption].
    apply rule_keys_spec. repeat split; try assumption; discriminate.
  - intros Hfun Htrue.
    now rewrite compile_rule_calls, Hfun, Htrue, rule_calls_true.
  - intros Hfun o v Hcfg Hopt Hnot_array Hnot_nullish.
    assert (Hargs : spread (resolve_options (VObj o)) = [v]).
    { unfold resolve_options, nullish_or. cbn [is_true prop].
      rewrite Hopt, Hnot_nullish. cbn [negb andb].
      now rewrite Hnot_nullish, Hnot_array. }
    rewrite compile_rule_calls, Hfun, Hcfg. cbn [fst].
    split; [|split].
    + unfold rule_calls. now rewrite Hargs.
    + reflexivity.
    + intros Hsanitizer.
      rewrite rule_calls_not_validator, Hargs by assumption. reflexivity.
  - intros Hfun o Hcfg Hnullish.
    assert (Hargs : spread (resolve_options (VObj o)) = []).
    { unfold resolve_options, nullish_or. cbn [is_true prop].
      now rewrite Hnullish. }
    rewrite compile_rule_calls, Hfun, Hcfg. cbn [fst].
    split.
    + unfold rule_calls. now rewrite Hargs.
    + intros Hsanitizer.
      rewrite rule_calls_not_validator, Hargs by assumption. reflexivity.
Qed.

(** ** The batch runner *)

Lemma set_nth_slots {A : Type} (values : list A) :
  forall (slots : list (option A)) (i : nat) (v : A),
    Forall2 slot_of slots values ->
    nth_error values i = Some v ->
    Forall2 slot_of (set_nth i (Some v) slots) values.
Proof.
  intros slots i v Hslots. revert i.
  induction Hslots as [|slot value slots values Hslot Hrest IH];
    intros i Hi; [destruct i; discriminate|].
  destruct i as [|i]; simpl in *.
  - injection Hi as ->. constructor; [now right | assumption].
  - constructor; [assumption | now apply IH].
Qed.

Lemma set_nth_empty {A : Type} (slots : list (option A)) :
  forall (i j : nat) (v : A),
    nth_error (set_nth i (Some v) slots) j = Some None ->
    nth_error slots j = Some None /\ j <> i.
Proof.
  induction slots as [|slot slots IH]; intros i j v Hempty.
  - destruct i, j; simpl in Hempty; discriminate Hempty.
  - destruct i as [|i], j as [|j]; simpl in Hempty; simpl.
    + discriminate Hempty.
    + split; [assumption | lia].
    + split; [assumption | lia].
    + destruct (IH _ _ _ Hempty). split; [assumption | lia].
Qed.

Lemma full_slots_collect {A : Type} (slots : list (option A))
      (values : list A) :
  Forall2 slot_of slots values ->
  forallb is_some slots = true ->
  collect slots = values.
Proof.
  induction 1 as [|slot value slots values Hslot Hrest IH]; simpl;
    [reflexivity|].
  intros Hfull. apply andb_true_iff in Hfull. destruct Hfull as [Hsome Hfull].
  destruct Hslot as [-> | ->]; [discriminate|].
  now rewrite IH.
Qed.

Lemma some_slot_empty {A : Type} (slots : list (option A)) :
  forallb is_some slots = false ->
  exists j, nth_error slots j = Some None.
Proof.
  induction slots as [|[v|] slots IH]; simpl; intros Hnot_full.
  - discriminate.
  - destruct (IH Hnot_full) as [j Hj]. now exists (S j).
  - now exists 0.
Qed.

(** When every promise fulfils, [Promise.all] fulfils with the values in the
    order of the promises as soon as the last empty slot is filled, in
    whatever order the promises settle. *)
Lemma promise_all_settle_fulfils {E A : Type} (values : list A) :
  forall (order : list nat) (slots : list (option A)),
    Forall2 slot_of slots values ->
    forallb is_some slots = false ->
    (forall j, nth_error slots j = Some None -> In j order) ->
    promise_all_settle (map (@Fulfilled E A) values) slots order
    = Some (Fulfilled values).
Proof.
  induction order as [|i later IH]; intros slots Hslots Hnot_full Hpending.
  - destruct (some_slot_empty _ Hnot_full) as [j Hj].
    destruct (Hpending j Hj).
  - cbn [promise_all_settle]. rewrite nth_error_map.
    destruct (nth_error values i) as [v|] eqn:Hi; cbn [option_map].
    + pose proof (set_nth_slots i Hslots Hi) as Hslots'.
      destruct (forallb is_some (set_nth i (Some v) slots)) eqn:Hfull.
      * now rewrite (full_slots_collect Hslots' Hfull).
      * apply IH; [assumption | assumption |].
        intros j Hj. apply set_nth_empty in Hj. destruct Hj as [Hj Hne].
        destruct (Hpending j Hj) as [-> | Hlater]; [contradiction|assumption].
    + apply IH; [assumption | assumption |].
      intros j Hj. destruct (Hpending j Hj) as [<- | Hlater]; [|assumption].
      apply nth_error_None in Hi.
      assert (Hlt : i < List.length slots)
        by (apply nth_error_Some; congruence).
      rewrite (Forall2_length Hslots) in Hlt. lia.
Qed.

Lemma empty_slots {A : Type} (values : list A) :
  Forall2 slot_of (repeat (@None A) (List.length values)) values.
Proof.
  induction values as [|value values IH]; simpl; constructor;
    [now left | assumption].
Qed.

Lemma promise_all_fulfils {E A : Type} (values : list A) (order : list nat) :
  (forall j, j < List.length values -> In j order) ->
  promise_all (map (@Fulfilled E A) values) order = Some (Fulfilled values).
Proof.
  intros Hall. destruct values as [|value values]; [reflexivity|].
  unfold promise_all. rewrite length_map.
  change (map Fulfilled (value :: values))
    with (map (@Fulfilled E A) (value :: values)).
  cbn [map]. change (Fulfilled value :: map Fulfilled values)
    with (map (@Fulfilled E A) (value :: values)).
  apply promise_all_settle_fulfils.
  - apply empty_slots.
  - reflexivity.
  - intros j Hj. apply Hall. rewrite <- (repeat_length (@None A)).
    apply nth_error_Some. congruence.
Qed.

Lemma runs_fulfilled (req : Request) (chains : list Chain)
      (results : list ResultWithContext) :
  Forall2 (fun chain result => chain_run chain req = Fulfilled result)
          chains results ->
  map (fun chain => chain_run chain req) chains = map Fulfilled results.
Proof.
  induction 1 as [|chain result chains results Hrun Hrest IH]; simpl;
    [reflexivity|]. now rewrite Hrun, IH.
Qed.

(** ** Further properties of location resolution *)

Lemma filter_all_valid (given : Locations) :
  (forall loc, In loc given -> includes validLocations loc = true) ->
  filter (includes validLocations) given = given.
Proof.
  induction given as [|loc given IH]; intros Hvalid; simpl; [reflexivity|].
  rewrite (Hvalid loc (or_introl eq_refl)). f_equal.
  apply IH. intros other Hin. apply Hvalid. now right.
Qed.

Lemma valid_location_is_truthy (loc : JsVal) :
  includes validLocations loc = true -> truthy loc = true /\ isArray loc = false.
Proof.
  destruct loc as [| |b|n| |str|given|props|name]; simpl; try discriminate.
  destruct str; [discriminate | now split].
Qed.

(** X1.  Locations given in [in] that are all valid are resolved exactly as
    given: the order and the repetitions of a non-empty list are kept, a
    single valid location gives the one-element list, and the defaults play
    no part. *)
Theorem valid_locations_are_kept :
  forall (config : ParamSchema) (defaults given : Locations),
    get config "in" = VArr given \/ given = [get config "in"] ->
    given <> [] ->
    (forall loc, In loc given -> includes validLocations loc = true) ->
    ensureLocations config defaults = given.
Proof.
  intros config defaults given Hgiven Hnonempty Hvalid.
  rewrite ensureLocations_resolve. unfold resolve_locations.
  assert (Hchosen : chosen_locations (get config "in") defaults = given).
  { destruct Hgiven as [Hlist | Hsingle].
    - rewrite Hlist. simpl. destruct given; [contradiction|reflexivity].
    - subst given.
      destruct (valid_location_is_truthy _ (Hvalid _ (or_introl eq_refl)))
        as [Htruthy Hnot_array].
      unfold chosen_locations.
      destruct (get config "in"); simpl in *; try discriminate;
        rewrite ?Htruthy; reflexivity. }
  rewrite Hchosen. now apply filter_all_valid.
Qed.

(** X2.  When [checkSchema] is called without [defaultLocations], the chain of
    every field whose [in] is absent, falsy or the empty list reads from the
    five locations, in the order body, cookies, headers, params, query. *)
Theorem fields_without_in_use_every_location :
  forall (schema : Schema) (console : Console),
    Forall2
      (fun entry chain =>
         field chain = fst entry
         /\ (truthy (get (snd entry) "in") = false
             \/ get (snd entry) "in" = VArr [] ->
             locations chain
             = [VStr "body"; VStr "cookies"; VStr "headers"; VStr "params";
                VStr "query"]))
      schema
      (items (fst (checkSchema schema None console))).
Proof.
  intros schema console. rewrite checkSchema_items.
  induction schema as [|[fld config] rest IH]; cbn [map]; constructor;
    [|exact IH].
  cbn [fst snd field_chain field locations].
  split; [reflexivity|].
  intros Hnone. rewrite ensureLocations_resolve. unfold resolve_locations, chosen_locations.
  destruct Hnone as [Hfalsy | Hempty].
  - destruct (get config "in") as [| |b|n| |str|given|props|name];
      simpl in *; try discriminate; rewrite ?Hfalsy; reflexivity.
  - rewrite Hempty. reflexivity.
Qed.

(** ** Further properties of the rule dispatcher *)

(** X3.  A rule whose configuration is truthy but not an object (a number, a
    non-empty string, an array, a function) is treated like the literal
    [true]: the method is called with no argument and no modifier is
    applied. *)
Theorem non_object_configuration_acts_as_true :
  forall (config : ParamSchema) (chain : Chain) (console : Console)
         (method : string),
    chain_has_function method = true ->
    truthy (get config method) = true ->
    (forall o, get config method <> VObj o) ->
    compile_rule config (chain, console) method
    = (invoke chain method [], console).
Proof.
  intros config chain console method Hfun Htruthy Hnot_object.
  rewrite compile_rule_calls, Hfun.
  assert (Hcalls : rule_calls method (get config method)
                   = [mkCall method []]).
  { unfold rule_calls, modifiers_before, modifiers_after, resolve_options,
      nullish_or.
    destruct (get config method) as [| |b|n| |str|given|props|name];
      simpl in *; try discriminate; rewrite ?andb_false_r;
      try reflexivity.
    - now destruct b.
    - now destruct (Hnot_object props). }
  now rewrite Hcalls.
Qed.

(** X4.  The argument list built at lines 88-91 is always an array, so the
    spread at line 101 is always defined; unless [options] itself is an
    array it holds at most one element. *)
Theorem rule_arguments_form_an_array :
  forall methodCfg : JsVal,
    exists args,
      resolve_options methodCfg = VArr args
      /\ (isArray (prop methodCfg "options") = false ->
          List.length args <= 1).
Proof.
  intros methodCfg. unfold resolve_options, nullish_or.
  destruct (is_true methodCfg).
  - exists []. split; [reflexivity | simpl; lia].
  - destruct (prop methodCfg "options") as [| |b|n| |str|given|props|name];
      simpl; eexists; (split; [reflexivity|]); simpl;
      try lia; discriminate.
Qed.

Lemma rule_calls_length (method : string) (methodCfg : JsVal) :
  1 <= List.length (rule_calls method methodCfg) <= 5.
Proof.
  unfold rule_calls, modifiers_before, modifiers_after, modifier.
  repeat match goal with
         | |- context [if ?b then _ else _] => destruct b
         end; simpl; lia.
Qed.

Lemma flat_map_length_bounds {A B : Type} (f : A -> list B) (lo hi : nat)
      (l : list A) :
  (forall a, In a l -> lo <= List.length (f a) <= hi) ->
  lo * List.length l <= List.length (flat_map f l) <= hi * List.length l.
Proof.
  induction l as [|a l IH]; intros Hbounds; simpl; [lia|].
  rewrite length_app.
  pose proof (Hbounds a (or_introl eq_refl)).
  assert (lo * List.length l <= List.length (flat_map f l)
          <= hi * List.length l)
    by (apply IH; intros b Hb; apply Hbounds; now right).
  lia.
Qed.

(** X5.  On the chain of a field, every rule key that names a function of
    the chain accounts for at least one and at most five calls; when none
    of these keys is in [ValidatorsImpl.prototype] there is exactly one call
    per key. *)
Theorem calls_per_rule :
  forall (defaultLocations : Locations) (console : Console) (fld : string)
         (config : ParamSchema),
    let known := filter chain_has_function (rule_keys config) in
    let made :=
      calls (fst (compile_field defaultLocations console fld config)) in
    List.length known <= List.length made <= 5 * List.length known
    /\ ((forall method, In method known ->
                        in_ValidatorsImpl_prototype method = false) ->
        List.length made = List.length known).
Proof.
  intros defaultLocations console fld config known made.
  subst made. rewrite compile_field_closed.
  cbn [fst field_chain calls]. unfold field_calls, dispatched_keys.
  fold known. split.
  - pose proof (@flat_map_length_bounds _ _
                  (fun method => rule_calls method (get config method))
                  1 5 known
                  (fun method _ => rule_calls_length method _)).
    lia.
  - intros Hsanitizers.
    rewrite (flat_map_agree
               (fun method => rule_calls method (get config method))
               (fun method =>
                  [mkCall method
                          (spread (resolve_options (get config method)))])).
    + clear. induction known; simpl; [reflexivity | now f_equal].
    + intros method Hin. apply rule_calls_not_validator.
      now apply Hsanitizers.
Qed.

(** ** Composition *)

Lemma get_app_l (first second : Obj) (k : string) :
  In k (keys first) -> get (first ++ second) k = get first k.
Proof.
  induction first as [|[k' v'] first IH]; simpl; intros Hin; [contradiction|].
  destruct (String.eqb_spec k' k) as [_ | Hne]; [reflexivity|].
  apply IH. destruct Hin; [contradiction | assumption].
Qed.

Lemma get_app_r (first second : Obj) (k : string) :
  ~ In k (keys first) -> get (first ++ second) k = get second k.
Proof.
  induction first as [|[k' v'] first IH]; simpl; intros Hfresh;
    [reflexivity|].
  destruct (String.eqb_spec k' k) as [-> | _]; [tauto|].
  apply IH. tauto.
Qed.

Lemma nodup_keys_app (first second : Obj) (k : string) :
  NoDup (keys (first ++ second)) ->
  In k (keys second) -> ~ In k (keys first).
Proof.
  rewrite keys_app. induction first as [|[k' v'] first IH]; simpl;
    intros Hnodup Hsecond; [tauto|].
  inversion Hnodup as [|? ? Hhead Htail]; subst.
  intros [-> | Hin].
  - apply Hhead. apply in_app_iff. now right.
  - now apply (IH Htail Hsecond).
Qed.

Lemma rule_keys_app (first second : Obj) :
  NoDup (keys (first ++ second)) ->
  rule_keys (first ++ second) = rule_keys first ++ rule_keys second.
Proof.
  intros Hnodup. unfold rule_keys. rewrite keys_app, filter_app. f_equal.
  - apply filter_ext_in. intros k Hin. now rewrite get_app_l.
  - apply filter_ext_in. intros k Hin.
    rewrite get_app_r; [reflexivity|]. now apply nodup_keys_app with second.
Qed.

(** X6.  The rules of a field are applied in the order of the keys of its
    configuration: the calls (and the warnings) of a configuration made of
    two parts are those of the first part followed by those of the second. *)
Theorem rules_are_applied_in_key_order :
  forall (defaultLocations : Locations) (console : Console) (fld : string)
         (first second : ParamSchema),
    NoDup (keys (first ++ second)) ->
    calls (fst (compile_field defaultLocations console fld
                              (first ++ second)))
    = calls (fst (compile_field defaultLocations console fld first))
      ++ calls (fst (compile_field defaultLocations console fld second))
    /\ snd (compile_field defaultLocations console fld (first ++ second))
       = snd (compile_field defaultLocations
                (snd (compile_field defaultLocations console fld first))
                fld second).
Proof.
  intros defaultLocations console fld first second Hnodup.
  rewrite !compile_field_closed. cbn [fst snd field_chain calls].
  unfold field_calls, field_warnings, dispatched_keys, unknown_keys.
  rewrite (rule_keys_app _ _ Hnodup), !filter_app, flat_map_app, map_app.
  split; [|now rewrite app_assoc].
  f_equal; apply flat_map_agree; intros k Hin; apply filter_In in Hin;
    destruct Hin as [Hin _]; apply rule_keys_spec in Hin;
    destruct Hin as [Hin _].
  - now rewrite get_app_l.
  - rewrite get_app_r; [reflexivity|]. now apply nodup_keys_app with second.
Qed.

(** X7.  Fields are compiled independently of one another: the chains of a
    schema made of two parts are the chains of the first part followed by
    the chains of the second, whatever the console held, and the console
    is threaded from the first part to the second. *)
Theorem fields_are_compiled_independently :
  forall (first second : Schema) (defaultLocations : option Locations)
         (console other : Console),
    items (fst (checkSchema (first ++ second) defaultLocations console))
    = items (fst (checkSchema first defaultLocations console))
      ++ items (fst (checkSchema second defaultLocations other))
    /\ snd (checkSchema (first ++ second) defaultLocations console)
       = snd (checkSchema second defaultLocations
                (snd (checkSchema first defaultLocations console))).
Proof.
  intros first second defaultLocations console other.
  rewrite !checkSchema_items, !checkSchema_console, map_app, flat_map_app.
  split; [reflexivity | now rewrite app_assoc].
Qed.

(** X8.  [checkSchema] only appends to the console.  The lines it adds are
    exactly the warnings for the rule keys (truthy, not reserved) that name
    no function of the chain: one line per such key, field after field in
    the order of the schema and, within a field, in the order of its keys.
    A line is therefore added if and only if it is the warning of such a
    key, and a schema all of whose rule keys name functions of the chain
    leaves the console as it was. *)
Theorem warnings_name_the_unknown_rules :
  forall (schema : Schema) (defaultLocations : option Locations)
         (console : Console),
    let added :=
      flat_map
        (fun entry : string * ParamSchema =>
           map unknown_method_warning
               (filter (fun method => negb (chain_has_function method))
                       (rule_keys (snd entry))))
        schema in
    snd (checkSchema schema defaultLocations console) = console ++ added
    /\ (forall line,
           In line added
           <-> exists fld config method,
                 In (fld, config) schema
                 /\ In method (rule_keys config)
                 /\ chain_has_function method = false
                 /\ line = unknown_method_warning method)
    /\ ((forall fld config method,
            In (fld, config) schema -> In method (rule_keys config) ->
            chain_has_function method = true) ->
        snd (checkSchema schema defaultLocations console) = console).
Proof.
  intros schema defaultLocations console added.
  assert (Hconsole : snd (checkSchema schema defaultLocations console)
                     = console ++ added)
    by apply checkSchema_console.
  assert (Hlines : forall line,
             In line added
             <-> exists fld config method,
                   In (fld, config) schema
                   /\ In method (rule_keys config)
                   /\ chain_has_function method = false
                   /\ line = unknown_method_warning method).
  { intros line. subst added. rewrite in_flat_map. split.
    - intros ([fld config] & Hentry & Hline). cbn [snd] in Hline.
      apply in_map_iff in Hline. destruct Hline as (method & <- & Hmethod).
      apply filter_In in Hmethod. destruct Hmethod as [Hkey Hunknown].
      apply negb_true_iff in Hunknown.
      exists fld, config, method. tauto.
    - intros (fld & config & method & Hentry & Hkey & Hunknown & ->).
      exists (fld, config). split; [assumption|]. cbn [snd].
      apply in_map. apply filter_In. split; [assumption|].
      now rewrite Hunknown. }
  split; [exact Hconsole|]. split; [exact Hlines|].
  intros Hknown. rewrite Hconsole.
  destruct added as [|line rest] eqn:Hadded; [apply app_nil_r|].
  destruct (proj1 (Hlines line) (or_introl eq_refl))
    as (fld & config & method & Hentry & Hkey & Hunknown & _).
  rewrite (Hknown _ _ _ Hentry Hkey) in Hunknown. discriminate.
Qed.

(** ** Further properties of the batch runner *)

Lemma set_nth_other {A : Type} (l : list A) :
  forall (i j : nat) (x : A),
    i <> j -> nth_error (set_nth i x l) j = nth_error l j.
Proof.
  induction l as [|h t IH]; intros i j x Hne.
  - now destruct i, j.
  - destruct i as [|i], j as [|j]; simpl; try reflexivity; try lia.
    apply IH. lia.
Qed.

Lemma empty_slot_not_full {A : Type} (slots : list (option A)) :
  forall j, nth_error slots j = Some None -> forallb is_some slots = false.
Proof.
  induction slots as [|slot slots IH]; intros j Hj.
  - destruct j; discriminate Hj.
  - destruct j as [|j]; simpl in Hj.
    + injection Hj as ->. reflexivity.
    + simpl. rewrite (IH _ Hj). apply andb_false_r.
Qed.

(** While the slot of one promise is empty and the promises that settle
    are not that one, the aggregate stays as the remaining completions
    leave it. *)
Lemma promise_all_settle_skips {E A : Type} (promises : list (Settled E A))
      (k : nat) :
  forall (earlier later : list nat) (slots : list (option A)),
    nth_error slots k = Some None ->
    ~ In k earlier ->
    (forall i e, In i earlier -> nth_error promises i <> Some (Rejected e)) ->
    exists slots',
      nth_error slots' k = Some None
      /\ promise_all_settle promises slots (earlier ++ later)
         = promise_all_settle promises slots' later.
Proof.
  induction earlier as [|i earlier IH]; intros later slots Hk Hfresh Hok.
  - now exists slots.
  - cbn [app promise_all_settle].
    assert (Hrest : forall i' e, In i' earlier ->
                                 nth_error promises i' <> Some (Rejected e))
      by (intros i' e Hin; apply Hok; now right).
    assert (Hne : i <> k) by (intros ->; apply Hfresh; now left).
    assert (Hfresh' : ~ In k earlier) by (intros Hin; apply Hfresh; now right).
    destruct (nth_error promises i) as [[v | e] |] eqn:Hi.
    + assert (Hk' : nth_error (set_nth i (Some v) slots) k = Some None)
        by (now rewrite set_nth_other).
      rewrite (empty_slot_not_full _ _ Hk').
      now apply IH.
    + exfalso. apply (Hok i e); [now left | assumption].
    + now apply IH.
Qed.

Lemma empty_slots_nth {A : Type} (n k : nat) :
  k < n -> nth_error (repeat (@None A) n) k = Some None.
Proof. apply nth_error_repeat. Qed.

Lemma promise_all_first_rejection {E A : Type}
      (promises : list (Settled E A)) (earlier later : list nat) (k : nat)
      (e : E) :
  nth_error promises k = Some (Rejected e) ->
  (forall i e', In i earlier -> nth_error promises i <> Some (Rejected e')) ->
  promise_all promises (earlier ++ k :: later) = Some (Rejected e).
Proof.
  intros Hk Hok.
  assert (Hlt : k < List.length promises)
    by (apply nth_error_Some; congruence).
  assert (Hfresh : ~ In k earlier)
    by (intros Hin; apply (Hok k e Hin Hk)).
  unfold promise_all. destruct promises as [|p promises]; [simpl in Hlt; lia|].
  destruct (promise_all_settle_skips (p :: promises) k earlier (k :: later)
              (repeat None (List.length (p :: promises)))
              (empty_slots_nth Hlt) Hfresh Hok)
    as (slots' & _ & ->).
  cbn [promise_all_settle]. now rewrite Hk.
Qed.

Lemma promise_all_pending {E A : Type}
      (promises : list (Settled E A)) (order : list nat) (k : nat) :
  k < List.length promises ->
  ~ In k order ->
  (forall i e, In i order -> nth_error promises i <> Some (Rejected e)) ->
  promise_all promises order = None.
Proof.
  intros Hlt Hfresh Hok.
  unfold promise_all. destruct promises as [|p promises]; [simpl in Hlt; lia|].
  destruct (promise_all_settle_skips (p :: promises) k order []
              (repeat None (List.length (p :: promises)))
              (empty_slots_nth Hlt) Hfresh Hok)
    as (slots' & _ & Hskip).
  rewrite app_nil_r in Hskip. rewrite Hskip. reflexivity.
Qed.

Lemma run_is_promise_all (schema : Schema)
      (defaultLocations : option Locations) (console : Console)
      (req : Request) (order : list nat) :
  run (fst (checkSchema schema defaultLocations console)) req order
  = promise_all
      (map (fun chain => chain_run chain req)
           (items (fst (checkSchema schema defaultLocations console))))
      order.
Proof.
  unfold checkSchema. fold (supplied_or_valid defaultLocations).
  now rewrite compile_fields_closed.
Qed.

(** X9.  A failure of one field's run is not suppressed: [run(req)] rejects
    with the reason of the first chain whose run rejects, in the order in
    which the runs complete, whatever the other chains do afterwards. *)
Theorem run_rejects_with_the_first_rejection :
  forall (schema : Schema) (defaultLocations : option Locations)
         (console : Console) (req : Request) (earlier later : list nat)
         (k : nat) (chain : Chain) (reason : Failure),
    let compiled := fst (checkSchema schema defaultLocations console) in
    nth_error (items compiled) k = Some chain ->
    chain_run chain req = Rejected reason ->
    (forall i c e, In i earlier -> nth_error (items compiled) i = Some c ->
                   chain_run c req <> Rejected e) ->
    run compiled req (earlier ++ k :: later) = Some (Rejected reason).
Proof.
  intros schema defaultLocations console req earlier later k chain reason
         compiled Hk Hrejects Hok.
  subst compiled. rewrite run_is_promise_all.
  apply promise_all_first_rejection.
  - rewrite nth_error_map, Hk. cbn [option_map]. now rewrite Hrejects.
  - intros i e' Hin Hi. rewrite nth_error_map in Hi.
    destruct (nth_error
                (items (fst (checkSchema schema defaultLocations console))) i)
      as [c|] eqn:Hc; [|discriminate Hi].
    cbn [option_map] in Hi. injection Hi as Hi.
    exact (Hok i c e' Hin Hc Hi).
Qed.

(** X10.  [run(req)] waits for every chain: as long as the run of one chain
    has not completed and no completed run has rejected, the promise that
    [run] returns is pending. *)
Theorem run_waits_for_every_chain :
  forall (schema : Schema) (defaultLocations : option Locations)
         (console : Console) (req : Request) (order : list nat) (k : nat),
    let compiled := fst (checkSchema schema defaultLocations console) in
    k < List.length schema ->
    ~ In k order ->
    (forall i c e, In i order -> nth_error (items compiled) i = Some c ->
                   chain_run c req <> Rejected e) ->
    run compiled req order = None.
Proof.
  intros schema defaultLocations console req order k compiled Hk Hfresh Hok.
  subst compiled. rewrite run_is_promise_all.
  apply promise_all_pending with k.
  - rewrite length_map, checkSchema_items, length_map. exact Hk.
  - exact Hfresh.
  - intros i e' Hin Hi. rewrite nth_error_map in Hi.
    destruct (nth_error
                (items (fst (checkSchema schema defaultLocations console))) i)
      as [c|] eqn:Hc; [|discriminate Hi].
    cbn [option_map] in Hi. injection Hi as Hi.
    exact (Hok i c e' Hin Hc Hi).
Qed.

(** X11.  Before any run has completed, the promise that [run] returns is
    pending, except for a schema without fields, for which it fulfils at
    once with the empty list of results. *)
Theorem run_before_any_completion :
  forall (schema : Schema) (defaultLocations : option Locations)
         (console : Console) (req : Request),
    run (fst (checkSchema schema defaultLocations console)) req []
    = match schema with
      | [] => Some (Fulfilled [])
      | _ :: _ => None
      end.
Proof.
  intros schema defaultLocations console req. rewrite run_is_promise_all.
  destruct schema as [|entry rest].
  - rewrite checkSchema_items. reflexivity.
  - apply promise_all_pending with 0.
    + rewrite length_map, checkSchema_items, length_map. simpl. lia.
    + intros [].
    + intros i e [].
Qed.

(** ** Compilation does not throw *)

Lemma forEach_returns {S A : Type} (f : S -> A -> S)
      (g : S -> A -> Outcome S) (xs : list A) :
  (forall st x, g st x = Returned (f st x)) ->
  forall st, forEach_or_throw g xs st = Returned (fold_left f xs st).
Proof.
  intros Hsame. induction xs as [|x xs IH]; intros st; simpl; [reflexivity|].
  rewrite Hsame. simpl. apply IH.
Qed.

(** On a chain that has its four modifier functions, the callback returns
    what [compile_rule] computes: the method it calls by name has been
    checked to be a function. *)
Lemma compile_rule_returns (config : ParamSchema) (st : Chain * Console)
      (method : string) :
  chain_has_function "if" = true -> chain_has_function "not" = true ->
  chain_has_function "withMessage" = true ->
  chain_has_function "bail" = true ->
  compile_rule_or_throw config st method
  = Returned (compile_rule config st method).
Proof.
  intros Hif Hnot Hmsg Hbail. destruct st as [chain console].
  unfold compile_rule_or_throw, compile_rule, call_or_throw.
  rewrite Hif, Hnot, Hmsg, Hbail.
  destruct (chain_has_function method); cbn [negb]; [|reflexivity].
  cbv zeta.
  destruct (isValidatorOptions method (get config method)
            && truthy (prop (get config method) "if")),
           (isValidatorOptions method (get config method)
            && truthy (prop (get config method) "negated")),
           (isValidatorOptions method (get config method)
            && truthy (prop (get config method) "errorMessage")),
           (isValidatorOptions method (get config method)
            && truthy (prop (get config method) "bail"));
    reflexivity.
Qed.

Lemma compile_fields_returns (defaultLocations : Locations)
      (schema : Schema) :
  chain_has_function "if" = true -> chain_has_function "not" = true ->
  chain_has_function "withMessage" = true ->
  chain_has_function "bail" = true ->
  forall console,
    compile_fields_or_throw defaultLocations schema console
    = Returned (compile_fields defaultLocations schema console).
Proof.
  intros Hif Hnot Hmsg Hbail.
  induction schema as [|[fld config] rest IH]; intros console;
    cbn [compile_fields_or_throw compile_fields]; [reflexivity|].
  unfold compile_field_or_throw, compile_field.
  rewrite (forEach_returns (compile_rule config)
             (compile_rule_or_throw config) (rule_keys config)
             (fun st x => compile_rule_returns config st x
                            Hif Hnot Hmsg Hbail)).
  cbn [and_then]. rewrite IH. cbn [and_then].
  destruct (fold_left (compile_rule config) (rule_keys config)
                      (check fld (ensureLocations config defaultLocations)
                             (get config "errorMessage"), console))
    as [chain console1].
  cbn [fst snd].
  now destruct (compile_fields defaultLocations rest console1).
Qed.

Lemma checkSchema_returns (schema : Schema)
      (defaultLocations : option Locations) (console : Console) :
  chain_has_function "if" = true -> chain_has_function "not" = true ->
  chain_has_function "withMessage" = true ->
  chain_has_function "bail" = true ->
  checkSchema_or_throw schema defaultLocations console
  = Returned (checkSchema schema defaultLocations console).
Proof.
  intros Hif Hnot Hmsg Hbail.
  unfold checkSchema_or_throw, checkSchema.
  fold (supplied_or_valid defaultLocations).
  rewrite compile_fields_returns by assumption. cbn [and_then].
  now destruct (compile_fields (supplied_or_valid defaultLocations) schema
                               console).
Qed.

Lemma nodup_keys_without (pre post : Obj) (k : string) (v : JsVal) :
  NoDup (keys (pre ++ (k, v) :: post)) ->
  NoDup (keys (pre ++ post)) /\ NoDup (keys ((k, v) :: post)).
Proof.
  rewrite !keys_app. cbn [keys map fst]. intros Hnodup. split.
  - now apply NoDup_remove_1 in Hnodup.
  - now apply NoDup_app_remove_l in Hnodup.
Qed.

Lemma field_calls_app (first second : Obj) :
  NoDup (keys (first ++ second)) ->
  field_calls (first ++ second) = field_calls first ++ field_calls second.
Proof.
  intros Hnodup. unfold field_calls, dispatched_keys.
  rewrite (rule_keys_app _ _ Hnodup), filter_app, flat_map_app.
  f_equal; apply flat_map_agree; intros k Hin; apply filter_In in Hin;
    destruct Hin as [Hin _]; apply rule_keys_spec in Hin;
    destruct Hin as [Hin _].
  - now rewrite get_app_l.
  - rewrite get_app_r; [reflexivity|]. now apply nodup_keys_app with second.
Qed.

Lemma field_warnings_app (first second : Obj) :
  NoDup (keys (first ++ second)) ->
  field_warnings (first ++ second)
  = field_warnings first ++ field_warnings second.
Proof.
  intros Hnodup. unfold field_warnings, unknown_keys.
  now rewrite (rule_keys_app _ _ Hnodup), filter_app, map_app.
Qed.

Lemma field_warnings_unknown (k : string) (v : JsVal) :
  truthy v && negb (includes protectedNames (VStr k)) = true ->
  chain_has_function k = false ->
  field_warnings [(k, v)] = [unknown_method_warning k].
Proof.
  intros Hkeep Hunknown. unfold field_warnings, unknown_keys, rule_keys.
  cbn [keys map fst filter get]. rewrite String.eqb_refl, Hkeep.
  cbn [filter]. now rewrite Hunknown.
Qed.

(** C6.  Take a schema in which one field holds a rule key (a key with a
    truthy value that is not reserved) naming no function of the chain.
    Compiling it returns the very collection that the schema without that
    key compiles to; the console receives one more line, the warning about
    that name, in the position of the key; and, the chain answering to its
    four modifiers, no call of that name is made on any chain.  The rest is
    compiled in full: the chains are those of the fields before, the chain
    of the field itself, carrying the calls of the rules before the unknown
    key followed by the calls of the rules after it, and the chains of the
    fields after; the console holds the warnings of all of them, in order.
    On a chain that has its four modifier functions the compilation does not
    throw: it returns that collection and that console. *)
Theorem unknown_rule_is_skipped :
  forall (before after : Schema) (fld : string) (pre post : ParamSchema)
         (method : string) (methodCfg : JsVal)
         (defaultLocations : option Locations) (console : Console),
    NoDup (keys (pre ++ (method, methodCfg) :: post)) ->
    truthy methodCfg = true ->
    ~ In method protectedNames ->
    chain_has_function method = false ->
    let schema :=
      before ++ (fld, pre ++ (method, methodCfg) :: post) :: after in
    let without := before ++ (fld, pre ++ post) :: after in
    let defaults := supplied_or_valid defaultLocations in
    let chain_of := fun entry : string * ParamSchema =>
      mkChain (fst entry) (ensureLocations (snd entry) defaults)
              (get (snd entry) "errorMessage") (field_calls (snd entry)) in
    let warnings_of := fun entry : string * ParamSchema =>
      field_warnings (snd entry) in
    fst (checkSchema schema defaultLocations console)
    = fst (checkSchema without defaultLocations console)
    /\ (exists earlier later,
           snd (checkSchema schema defaultLocations console)
           = console ++ earlier ++ unknown_method_warning method :: later
           /\ snd (checkSchema without defaultLocations console)
              = console ++ earlier ++ later)
    /\ (chain_has_function "if" = true -> chain_has_function "not" = true ->
        chain_has_function "withMessage" = true ->
        chain_has_function "bail" = true ->
        forall chain c,
          In chain (items (fst (checkSchema schema defaultLocations console)))
          -> In c (calls chain) -> call_name c <> method)
    /\ items (fst (checkSchema schema defaultLocations console))
       = map chain_of before
         ++ mkChain fld (ensureLocations (pre ++ post) defaults)
                    (get (pre ++ post) "errorMessage")
                    (field_calls pre ++ field_calls post)
            :: map chain_of after
    /\ snd (checkSchema schema defaultLocations console)
       = console
         ++ flat_map warnings_of before
         ++ (field_warnings pre
             ++ unknown_method_warning method :: field_warnings post)
         ++ flat_map warnings_of after
    /\ (chain_has_function "if" = true -> chain_has_function "not" = true ->
        chain_has_function "withMessage" = true ->
        chain_has_function "bail" = true ->
        checkSchema_or_throw schema defaultLocations console
        = Returned (checkSchema schema defaultLocations console)).
Proof.
  intros before after fld pre post method methodCfg defaultLocations console
         Hnodup Htruthy Hfree Hunknown schema without defaults chain_of
         warnings_of.
  assert (Hnames : method <> "errorMessage" /\ method <> "in").
  { simpl in Hfree. split; intros ->; tauto. }
  assert (Hkeep : truthy methodCfg
                  && negb (includes protectedNames (VStr method)) = true).
  { rewrite Htruthy. simpl. rewrite !orb_false_r.
    destruct Hnames as [Hmsg Hin].
    apply String.eqb_neq in Hmsg, Hin. now rewrite Hmsg, Hin. }
  destruct (nodup_keys_without _ _ _ _ Hnodup) as [Hwithout Hsuffix].
  assert (Hcalls : field_calls (pre ++ (method, methodCfg) :: post)
                   = field_calls pre ++ field_calls post).
  { rewrite field_calls_remove by (assumption || now right).
    now apply field_calls_app. }
  assert (Hwarnings : field_warnings (pre ++ (method, methodCfg) :: post)
                      = field_warnings pre
                        ++ unknown_method_warning method
                           :: field_warnings post).
  { rewrite field_warnings_app by assumption.
    change ((method, methodCfg) :: post)
      with ([(method, methodCfg)] ++ post).
    rewrite field_warnings_app by assumption.
    now rewrite field_warnings_unknown. }
  assert (Hchain : field_chain defaults fld
                               (pre ++ (method, methodCfg) :: post)
                   = mkChain fld (ensureLocations (pre ++ post) defaults)
                             (get (pre ++ post) "errorMessage")
                             (field_calls pre ++ field_calls post)).
  { unfold field_chain, ensureLocations. rewrite Hcalls.
    rewrite !(get_other pre post) by (intros E; symmetry in E; tauto).
    reflexivity. }
  split; [|split; [|split; [|split; [|split]]]].
  - apply checkSchema_same_chains. rewrite !checkSchema_items.
    subst schema without. rewrite !map_app. cbn [map fst snd].
    fold defaults. rewrite Hchain.
    do 2 f_equal. unfold field_chain, ensureLocations.
    now rewrite field_calls_app by assumption.
  - exists (flat_map warnings_of before ++ field_warnings pre),
           (field_warnings post ++ flat_map warnings_of after).
    rewrite !checkSchema_console. subst schema without.
    rewrite !flat_map_app. cbn [flat_map snd].
    rewrite Hwarnings, field_warnings_app by assumption.
    split; now rewrite <- ?app_assoc.
  - intros Hif Hnot Hmsg Hbail chain c Hchain_in Hc Hname.
    rewrite checkSchema_items in Hchain_in. apply in_map_iff in Hchain_in.
    destruct Hchain_in as ([fld' config'] & <- & _).
    cbn [field_chain calls] in Hc.
    pose proof (field_calls_are_functions _ _ Hif Hnot Hmsg Hbail Hc) as Hfun.
    congruence.
  - rewrite checkSchema_items. subst schema. rewrite map_app.
    cbn [map fst snd]. fold defaults. now rewrite Hchain.
  - rewrite checkSchema_console. subst schema. rewrite flat_map_app.
    cbn [flat_map snd]. now rewrite Hwarnings.
  - intros Hif Hnot Hmsg Hbail. now apply checkSchema_returns.
Qed.

(** C7.  [checkSchema] returns one chain per key of the schema, in the
    order of the keys, each for the field that its key names; the returned
    collection holds [run] as a property of its own, and [run(req)] runs the
    chains of that collection against [req].  When every chain's run
    fulfils, [run(req)] fulfils with one result per chain, in the order of
    the chains, in whatever order the runs complete; it does so once every
    run has completed, and it is still pending while the run of some chain
    has not completed. *)
Theorem run_returns_results_in_chain_order :
  forall (schema : Schema) (defaultLocations : option Locations)
         (console : Console),
    let compiled := fst (checkSchema schema defaultLocations console) in
    map field (items compiled) = map fst schema
    /\ List.length (items compiled) = List.length schema
    /\ (forall (req : Request) (order : list nat),
           run compiled req order
           = promise_all (map (fun chain => chain_run chain req)
                              (items compiled))
                         order)
    /\ (forall (req : Request) (results : list ResultWithContext)
               (order : list nat),
           Forall2 (fun chain result => chain_run chain req = Fulfilled result)
                   (items compiled) results ->
           Permutation order (seq 0 (List.length (items compiled))) ->
           run compiled req order = Some (Fulfilled results)
           /\ List.length results = List.length schema)
    /\ (forall (req : Request) (results : list ResultWithContext)
               (order : list nat),
           Forall2 (fun chain result => chain_run chain req = Fulfilled result)
                   (items compiled) results ->
           ((forall k, k < List.length schema -> In k order) ->
            run compiled req order = Some (Fulfilled results))
           /\ (forall k, k < List.length schema -> ~ In k order ->
                         run compiled req order = None)).
Proof.
  intros schema defaultLocations console compiled.
  assert (Hitems : items compiled
                   = map (fun entry =>
                            field_chain (supplied_or_valid defaultLocations)
                                        (fst entry) (snd entry))
                         schema)
    by apply checkSchema_items.
  assert (Hrun : forall req order,
             run compiled req order
             = promise_all (map (fun chain => chain_run chain req)
                                (items compiled))
                           order)
    by (intros req order; apply run_is_promise_all).
  assert (Hlength : List.length (items compiled) = List.length schema)
    by (rewrite Hitems; apply length_map).
  split; [|split; [|split; [|split]]].
  - rewrite Hitems, map_map. reflexivity.
  - exact Hlength.
  - exact Hrun.
  - intros req results order Hfulfil Horder.
    split; [|now rewrite <- (Forall2_length Hfulfil)].
    rewrite Hrun, (runs_fulfilled Hfulfil).
    apply promise_all_fulfils. intros j Hj.
    apply (Permutation_in j (Permutation_sym Horder)).
    apply in_seq. rewrite (Forall2_length Hfulfil). lia.
  - intros req results order Hfulfil.
    pose proof (Forall2_length Hfulfil) as Hresults.
    rewrite Hrun, (runs_fulfilled Hfulfil). split.
    + intros Hall. apply promise_all_fulfils. intros j Hj.
      apply Hall. lia.
    + intros k Hk Hfresh. apply promise_all_pending with k.
      * rewrite length_map. lia.
      * exact Hfresh.
      * intros i e _ Hi. rewrite nth_error_map in Hi.
        destruct (nth_error results i); discriminate Hi.
Qed.

End SchemaCompiler.

(** C1, counterexample.  With [in: ['foo']] and the defaults [['body']] every
    given location is invalid, yet the resolved list is empty and not the
    defaults. *)
Lemma invalid_locations_do_not_fall_back : ~ invalid_locations_fall_back.
Proof.
  intros Hclaim.
  destruct (Hclaim [("in", VArr [VStr "foo"])] [VStr "body"] [VStr "foo"]
                   eq_refl ltac:(discriminate)) as [_ Hfallback].
  assert (Hinvalid : forall loc, In loc [VStr "foo"] ->
                                 includes validLocations loc = false).
  { intros loc [<- | []]. reflexivity. }
  specialize (Hfallback Hinvalid). discriminate Hfallback.
Qed.

(** C2, counterexample.  With [in: ''] (a single value, not an absent one)
    the code drops the value and resolves the defaults, where the algorithm
    as worded wraps it and resolves nothing. *)
Lemma empty_string_location_is_dropped :
  ~ ensureLocations_follows_spec_algorithm.
Proof.
  intros Hclaim.
  specialize (Hclaim [("in", VStr "")] [VStr "body"]).
  discriminate Hclaim.
Qed.

(** C5, counterexample.  With [default: { options: null }] the value of
    [options] is a single value that is not a list, yet [default] is called
    with no argument, not with [null]. *)
Lemma null_option_is_not_passed :
  ~ single_option_is_sole_argument sample_has_function sample_in_validators.
Proof.
  intros Hclaim.
  specialize (Hclaim [("default", VObj [("options", VNull)])]
                     (check "name" [VStr "body"] VUndefined) []
                     "default" [("options", VNull)] VNull
                     eq_refl eq_refl (or_introl eq_refl) eq_refl eq_refl).
  simpl in Hclaim. destruct Hclaim as [Hcall | []]. discriminate Hcall.
Qed.

(** C10, counterexample.  With [optional: { options: null }] the value of
    [options] is not a list, yet [optional] is called with no argument. *)
Lemma null_optional_option_is_not_passed :
  ~ optional_option_is_sole_argument sample_has_function
      sample_in_validators.
Proof.
  intros Hclaim.
  specialize (Hclaim [("optional", VObj [("options", VNull)])]
                     (check "nickname" [VStr "body"] VUndefined) []
                     [("options", VNull)] VNull
                     eq_refl eq_refl (or_introl eq_refl) eq_refl eq_refl).
  simpl in Hclaim. destruct Hclaim as [Hcall | []]. discriminate Hcall.
Qed.

(** ** The theorems at concrete schemas *)

Ltac distinct_keys :=
  repeat constructor; simpl; intuition discriminate.

(** C1 at [in: ['foo', 'query']] and at [in: ['foo']], with the defaults
    [['body']]. *)
Lemma ensureLocations_excludes_invalid_witness :
  ensureLocations [("in", VArr [VStr "foo"; VStr "query"])] [VStr "body"]
  = [VStr "query"]
  /\ ensureLocations [("in", VArr [VStr "foo"])] [VStr "body"] = [].
Proof.
  split.
  - destruct (ensureLocations_excludes_invalid
                [("in", VArr [VStr "foo"; VStr "query"])] [VStr "body"])
      as (_ & Hlist & _).
    exact (proj1 (Hlist _ eq_refl ltac:(discriminate))).
  - destruct (ensureLocations_excludes_invalid
                [("in", VArr [VStr "foo"])] [VStr "body"])
      as (_ & Hlist & _).
    apply (proj2 (Hlist _ eq_refl ltac:(discriminate))).
    intros loc [<- | []]. reflexivity.
Defined.

(** C2 at [in: 'query'], where the code and the algorithm as worded
    agree. *)
Lemma ensureLocations_algorithm_witness :
  ensureLocations [("in", VStr "query")] [VStr "body"]
  = spec_resolve_locations (VStr "query") [VStr "body"].
Proof.
  destruct (@ensureLocations_algorithm
              sample_has_function sample_in_validators
              unit string string sample_chain_run)
    as (Hcode & Hspec & _).
  rewrite Hcode. apply Hspec. now left.
Defined.

(** C3 at the sanitizer [trim] and at the validator [isInt], both configured
    with [bail] and [negated]. *)
Lemma modifiers_only_for_validators_witness :
  compile_rule sample_has_function sample_in_validators
    [("trim", VObj [("options", VStr " "); ("bail", VBool true);
                    ("negated", VBool true)])]
    (check "name" [VStr "body"] VUndefined, []) "trim"
  = (mkChain "name" [VStr "body"] VUndefined [mkCall "trim" [VStr " "]], [])
  /\ compile_rule sample_has_function sample_in_validators
       [("isInt", VObj [("bail", VBool true); ("negated", VBool true)])]
       (check "age" [VStr "body"] VUndefined, []) "isInt"
     = (mkChain "age" [VStr "body"] VUndefined
                [mkCall "not" []; mkCall "isInt" []; mkCall "bail" []], []).
Proof.
  split.
  - exact (@modifiers_only_for_validators
             sample_has_function sample_in_validators
             [("trim", VObj [("options", VStr " "); ("bail", VBool true);
                             ("negated", VBool true)])]
             (check "name" [VStr "body"] VUndefined) [] "trim" _
             eq_refl eq_refl).
  - exact (@modifiers_only_for_validators
             sample_has_function sample_in_validators
             [("isInt", VObj [("bail", VBool true); ("negated", VBool true)])]
             (check "age" [VStr "body"] VUndefined) [] "isInt" _
             eq_refl eq_refl).
Defined.

(** C4 at [isEmail] with the four modifiers and an options object. *)
Lemma modifiers_applied_in_fixed_order_witness :
  calls (fst (compile_rule sample_has_function sample_in_validators
                [("isEmail",
                  VObj [("bail", VBool true);
                        ("errorMessage", VStr "bad email");
                        ("negated", VBool true);
                        ("if", VFun "whenPresent");
                        ("options", VObj [("allow_display_name",
                                           VBool true)])])]
                (check "email" [VStr "body"] VUndefined, []) "isEmail"))
  = [mkCall "if" [VFun "whenPresent"];
     mkCall "not" [];
     mkCall "isEmail" [VObj [("allow_display_name", VBool true)]];
     mkCall "withMessage" [VStr "bad email"];
     mkCall "bail" []].
Proof.
  exact (proj2 (@modifiers_applied_in_fixed_order
                  sample_has_function sample_in_validators
                  [("isEmail",
                    VObj [("bail", VBool true);
                          ("errorMessage", VStr "bad email");
                          ("negated", VBool true);
                          ("if", VFun "whenPresent");
                          ("options", VObj [("allow_display_name",
                                             VBool true)])])]
                  (check "email" [VStr "body"] VUndefined) [] "isEmail" _
                  eq_refl eq_refl eq_refl)
               eq_refl eq_refl eq_refl eq_refl).
Defined.

(** C5 at [isInt: true]. *)
Lemma rule_arguments_witness :
  compile_rule sample_has_function sample_in_validators
    [("isInt", VBool true)] (check "age" [VStr "body"] VUndefined, []) "isInt"
  = (mkChain "age" [VStr "body"] VUndefined [mkCall "isInt" []], []).
Proof.
  exact (proj1 (@rule_arguments sample_has_function sample_in_validators
                  [("isInt", VBool true)]
                  (check "age" [VStr "body"] VUndefined) [] "isInt" eq_refl)
               eq_refl).
Defined.

(** C6 at the schema
    [{ age: { isInt: true, isFoo: true, toInt: true }, name: { trim: true } }]:
    the compilation returns, the chain of [age] carries [isInt()] and
    [toInt()], the chain of [name] carries [trim()], and the console holds
    the one warning about [isFoo]. *)
Lemma unknown_rule_is_skipped_witness :
  let compiled :=
    checkSchema sample_has_function sample_in_validators sample_chain_run
      [("age", [("isInt", VBool true); ("isFoo", VBool true);
                ("toInt", VBool true)]);
       ("name", [("trim", VBool true)])]
      None [] in
  checkSchema_or_throw sample_has_function sample_in_validators
    sample_chain_run
    [("age", [("isInt", VBool true); ("isFoo", VBool true);
              ("toInt", VBool true)]);
     ("name", [("trim", VBool true)])]
    None []
  = Returned compiled
  /\ items (fst compiled)
     = [mkChain "age"
                [VStr "body"; VStr "cookies"; VStr "headers"; VStr "params";
                 VStr "query"]
                VUndefined [mkCall "isInt" []; mkCall "toInt" []];
        mkChain "name"
                [VStr "body"; VStr "cookies"; VStr "headers"; VStr "params";
                 VStr "query"]
                VUndefined [mkCall "trim" []]]
  /\ snd compiled
     = ["express-validator: a validator/sanitizer with name isFoo does not exist"].
Proof.
  assert (Hdistinct : NoDup (keys ([("isInt", VBool true)]
                                   ++ ("isFoo", VBool true)
                                      :: [("toInt", VBool true)])))
    by distinct_keys.
  assert (Hfree : ~ In "isFoo" protectedNames)
    by (simpl; intuition discriminate).
  destruct (@unknown_rule_is_skipped
              sample_has_function sample_in_validators
              unit string string sample_chain_run
              [] [("name", [("trim", VBool true)])] "age"
              [("isInt", VBool true)] [("toInt", VBool true)]
              "isFoo" (VBool true) None [] Hdistinct eq_refl Hfree eq_refl)
    as (_ & _ & _ & Hitems & Hconsole & Hreturns).
  split; [exact (Hreturns eq_refl eq_refl eq_refl eq_refl)|].
  split; [exact Hitems | exact Hconsole].
Defined.

(** C7 at a schema of two fields: once both runs have completed, in reverse
    order, [run] fulfils with the results in the order of the fields; while
    only the second run has completed it is pending. *)
Lemma run_returns_results_in_chain_order_witness :
  let compiled :=
    fst (checkSchema sample_has_function sample_in_validators
           sample_chain_run
           [("age", [("isInt", VBool true)]);
            ("name", [("trim", VBool true)])]
           None []) in
  run compiled tt [1; 0] = Some (Fulfilled ["age"; "name"])
  /\ run compiled tt [1] = None.
Proof.
  destruct (@run_returns_results_in_chain_order
              sample_has_function sample_in_validators
              unit string string sample_chain_run
              [("age", [("isInt", VBool true)]);
               ("name", [("trim", VBool true)])]
              None [])
    as (_ & _ & _ & Hpermuted & Hawaits).
  assert (Hfulfil :
            Forall2 (fun chain result =>
                       sample_chain_run chain tt = Fulfilled result)
                    (items
                       (fst (checkSchema sample_has_function
                               sample_in_validators sample_chain_run
                               [("age", [("isInt", VBool true)]);
                                ("name", [("trim", VBool true)])]
                               None [])))
                    ["age"; "name"])
    by (repeat constructor).
  split.
  - exact (proj1 (Hpermuted tt ["age"; "name"] [1; 0] Hfulfil
                            (perm_swap 0 1 []))).
  - refine (proj2 (Hawaits tt ["age"; "name"] [1] Hfulfil) 0 _ _).
    + simpl. lia.
    + intros [H | []]. discriminate H.
Defined.

(** C8 at [{ in: 'query', isInt: false, toInt: true }]. *)
Lemma reserved_and_falsy_keys_are_skipped_witness :
  calls (fst (compile_field sample_has_function sample_in_validators
                [VStr "body"] [] "age"
                [("in", VStr "query"); ("isInt", VBool false);
                 ("toInt", VBool true)]))
  = calls (fst (compile_field sample_has_function sample_in_validators
                  [VStr "body"] [] "age"
                  [("in", VStr "query"); ("toInt", VBool true)])).
Proof.
  destruct (@reserved_and_falsy_keys_are_skipped
              sample_has_function sample_in_validators
              [VStr "body"] [] "age"
              [("in", VStr "query"); ("isInt", VBool false);
               ("toInt", VBool true)])
    as (_ & _ & _ & Hremove).
  refine (proj1 (Hremove [("in", VStr "query")] [("toInt", VBool true)]
                         "isInt" (VBool false) eq_refl _ _)).
  - distinct_keys.
  - now right.
Defined.

(** C9 at [isInt] with [negated: false], [bail: false],
    [errorMessage: ''] and [if: null]. *)
Lemma falsy_modifiers_are_not_applied_witness :
  calls (fst (compile_rule sample_has_function sample_in_validators
                [("isInt",
                  VObj [("negated", VBool false); ("bail", VBool false);
                        ("errorMessage", VStr ""); ("if", VNull)])]
                (check "age" [VStr "body"] VUndefined, []) "isInt"))
  = [mkCall "isInt" []].
Proof.
  destruct (@falsy_modifiers_are_not_applied
              sample_has_function sample_in_validators
              [("isInt",
                VObj [("negated", VBool false); ("bail", VBool false);
                      ("errorMessage", VStr ""); ("if", VNull)])]
              (check "age" [VStr "body"] VUndefined) [] "isInt" _
              eq_refl eq_refl eq_refl)
    as (_ & _ & _ & _ & Hnone).
  exact (Hnone eq_refl eq_refl eq_refl eq_refl).
Defined.

(** C10 at [optional: { options: { nullable: true } }], which calls
    [optional({ nullable: true })], and at [optional: { options: null }],
    which calls [optional()]. *)
Lemma optional_is_dispatched_as_a_rule_witness :
  compile_rule sample_has_function sample_in_validators
    [("optional", VObj [("options", VObj [("nullable", VBool true)])])]
    (check "nickname" [VStr "body"] VUndefined, []) "optional"
  = (mkChain "nickname" [VStr "body"] VUndefined
             [mkCall "optional" [VObj [("nullable", VBool true)]]], [])
  /\ compile_rule sample_has_function sample_in_validators
       [("optional", VObj [("options", VNull)])]
       (check "nickname" [VStr "body"] VUndefined, []) "optional"
     = (mkChain "nickname" [VStr "body"] VUndefined
                [mkCall "optional" []], []).
Proof.
  split.
  - destruct (@optional_is_dispatched_as_a_rule
                sample_has_function sample_in_validators
                [VStr "body"] [] "nickname"
                [("optional",
                  VObj [("options", VObj [("nullable", VBool true)])])]
                (check "nickname" [VStr "body"] VUndefined))
      as (_ & _ & _ & _ & Hobject & _).
    destruct (Hobject eq_refl _ _ eq_refl eq_refl eq_refl eq_refl)
      as (_ & _ & Hcall).
    exact (Hcall eq_refl).
  - destruct (@optional_is_dispatched_as_a_rule
                sample_has_function sample_in_validators
                [VStr "body"] [] "nickname"
                [("optional", VObj [("options", VNull)])]
                (check "nickname" [VStr "body"] VUndefined))
      as (_ & _ & _ & _ & _ & Hnullish).
    exact (proj2 (Hnullish eq_refl _ eq_refl eq_refl) eq_refl).
Defined.

(** X1 at [in: ['query', 'body', 'query']] with the defaults
    [['cookies']]. *)
Lemma valid_locations_are_kept_witness :
  ensureLocations [("in", VArr [VStr "query"; VStr "body"; VStr "query"])]
                  [VStr "cookies"]
  = [VStr "query"; VStr "body"; VStr "query"].
Proof.
  apply (@valid_locations_are_kept
           [("in", VArr [VStr "query"; VStr "body"; VStr "query"])]
           [VStr "cookies"] [VStr "query"; VStr "body"; VStr "query"]).
  - now left.
  - discriminate.
  - intros loc [<- | [<- | [<- | []]]]; reflexivity.
Defined.

(** X3 at [isLength: 5]. *)
Lemma non_object_configuration_acts_as_true_witness :
  compile_rule sample_has_function sample_in_validators
    [("isLength", VNum 5)] (check "name" [VStr "body"] VUndefined, [])
    "isLength"
  = (mkChain "name" [VStr "body"] VUndefined [mkCall "isLength" []], []).
Proof.
  apply (@non_object_configuration_acts_as_true
           sample_has_function sample_in_validators
           [("isLength", VNum 5)] (check "name" [VStr "body"] VUndefined) []
           "isLength" eq_refl eq_refl).
  intros o Hobject. discriminate Hobject.
Defined.

(** X6 at [{ trim: true }] followed by [{ isInt: true, isFoo: true }]. *)
Lemma rules_are_applied_in_key_order_witness :
  calls (fst (compile_field sample_has_function sample_in_validators
                [VStr "body"] [] "age"
                ([("trim", VBool true)]
                 ++ [("isInt", VBool true); ("isFoo", VBool true)])))
  = calls (fst (compile_field sample_has_function sample_in_validators
                  [VStr "body"] [] "age" [("trim", VBool true)]))
    ++ calls (fst (compile_field sample_has_function sample_in_validators
                     [VStr "body"] [] "age"
                     [("isInt", VBool true); ("isFoo", VBool true)])).
Proof.
  refine (proj1 (@rules_are_applied_in_key_order
                   sample_has_function sample_in_validators
                   [VStr "body"] [] "age" [("trim", VBool true)]
                   [("isInt", VBool true); ("isFoo", VBool true)] _)).
  distinct_keys.
Defined.

(** X8 at a schema in which two fields hold the unknown rule [isFoo] and
    the second one also [isBar] before it: three lines, in that order. *)
Lemma warnings_name_the_unknown_rules_witness :
  snd (checkSchema sample_has_function sample_in_validators sample_chain_run
         [("age", [("isFoo", VBool true); ("isInt", VBool true)]);
          ("name", [("isBar", VBool true); ("trim", VBool true);
                    ("isFoo", VBool true)])]
         None ["earlier line"])
  = ["earlier line";
     "express-validator: a validator/sanitizer with name isFoo does not exist";
     "express-validator: a validator/sanitizer with name isBar does not exist";
     "express-validator: a validator/sanitizer with name isFoo does not exist"].
Proof.
  exact (proj1 (@warnings_name_the_unknown_rules
                  sample_has_function sample_in_validators
                  unit string string sample_chain_run
                  [("age", [("isFoo", VBool true); ("isInt", VBool true)]);
                   ("name", [("isBar", VBool true); ("trim", VBool true);
                             ("isFoo", VBool true)])]
                  None ["earlier line"])).
Defined.

(** X9 at a schema of three fields, the second of which has no valid
    location and is rejected by the sample engine. *)
Lemma run_rejects_with_the_first_rejection_witness :
  run (fst (checkSchema sample_has_function sample_in_validators
              sample_chain_run
              [("a", [("in", VStr "body")]);
               ("b", [("in", VStr "session")]);
               ("c", [("in", VStr "query")])]
              None []))
      tt ([0] ++ 1 :: [2])
  = Some (Rejected "b").
Proof.
  refine (@run_rejects_with_the_first_rejection
            sample_has_function sample_in_validators
            unit string string sample_chain_run
            [("a", [("in", VStr "body")]);
             ("b", [("in", VStr "session")]);
             ("c", [("in", VStr "query")])]
            None [] tt [0] [2] 1
            (mkChain "b" [] VUndefined []) "b" eq_refl eq_refl _).
  intros i c e [<- | []] Hc Hrun.
  injection Hc as <-. discriminate Hrun.
Defined.

(** X10 at a schema of two fields of which only the second has completed. *)
Lemma run_waits_for_every_chain_witness :
  run (fst (checkSchema sample_has_function sample_in_validators
              sample_chain_run
              [("age", [("isInt", VBool true)]);
               ("name", [("trim", VBool true)])]
              None []))
      tt [1]
  = None.
Proof.
  refine (@run_waits_for_every_chain
            sample_has_function sample_in_validators
            unit string string sample_chain_run
            [("age", [("isInt", VBool true)]);
             ("name", [("trim", VBool true)])]
            None [] tt [1] 0 _ _ _).
  - simpl. lia.
  - intros [H | []]. discriminate H.
  - intros i c e [<- | []] Hc Hrun.
    injection Hc as <-. discriminate Hrun.
Defined.

(** ** The end-to-end schemas of the specification *)

Example age_schema_compiles :
  let (compiled, console) :=
    checkSchema sample_has_function sample_in_validators sample_chain_run
      [("age", [("isInt", VBool true); ("in", VStr "body")])] None [] in
  items compiled
  = [mkChain "age" [VStr "body"] VUndefined [mkCall "isInt" []]]
  /\ console = [].
Proof. split; reflexivity. Qed.

Example email_schema_compiles :
  let (compiled, console) :=
    checkSchema sample_has_function sample_in_validators sample_chain_run
      [("email",
        [("isEmail", VObj [("errorMessage", VStr "bad email");
                          ("bail", VBool true)]);
         ("in", VArr [VStr "body"; VStr "query"])])]
      None [] in
  items compiled
  = [mkChain "email" [VStr "body"; VStr "query"] VUndefined
             [mkCall "isEmail" [];
              mkCall "withMessage" [VStr "bad email"];
              mkCall "bail" []]]
  /\ console = [].
Proof. split; reflexivity. Qed.
